(** * nugget: the [useGsap] composable and the baked-animation options

    A shallow embedding of [src/runtime/composables/use-gsap/index.ts] and of
    the option types of [src/runtime/baked/types.ts].

    The composable is glue between three libraries it imports: the animation
    engine (gsap), the reactivity runtime (Vue: [watchPostEffect], [toValue])
    and the lifecycle helpers (VueUse: [tryOnScopeDispose], [tryOnMounted],
    [createEventHook]).  Their state is made explicit in a record [World] and
    the code is written in a state-and-fault monad over it.  Closures that
    the code hands to those libraries are stored as data (one constructor per
    arrow function of the source) and run by the host events below. *)

From Stdlib Require Import QArith.
From stdpp Require Import base option list gmap strings.

Close Scope Q_scope.
Open Scope nat_scope.

(** ** Values *)

(** A handle is the identity of one tween or timeline made by the engine. *)
Definition Handle := nat.

(** [gsap.TweenTarget | undefined]: a selector string, an object (an element,
    identified here by a number), [null], or [undefined]. *)
Inductive TweenTarget :=
| TUndefined
| TNull
| TSelector (s : string)
| TElement (id : nat).

(** JavaScript truthiness, as tested by [if (!el) return]. *)
Definition truthy (el : TweenTarget) : bool :=
  match el with
  | TUndefined | TNull => false
  | TSelector s => negb (String.eqb s "")
  | TElement _ => true
  end.

(** Values of option objects; a nested object keeps its own field list. *)
#[local] Set Warnings "-register-all".
Inductive Val :=
| VNum (q : Q)
| VStr (s : string)
| VBool (b : bool)
| VFun (name : nat)
| VObj (fields : list (string * Val)).

(** [gsap.TweenVars], [gsap.TimelineVars] and their [Strong] variants are
    objects used as maps from field names to values. *)
#[local] Set Warnings "+register-all".
Abbreviation Options := (gmap string Val).

Inductive Plugin :=
| ScrollTrigger
| OtherPlugin (name : string).

Inductive SeekPos :=
| AtTime (t : Q)
| AtLabel (label : string).

(** The methods of a handle that the composable calls. *)
Inductive Method :=
| Play
| Pause
| Restart
| Resume
| Progress (value : Q)
| Seek (value : SeekPos)
| IsActive
| Kill.

(** The second argument of [fromTo]: [{ from, to }]. *)
Record FromToOptions := {
  opt_from : Options;
  opt_to : Options
}.

(** The four tween factories of the engine with their option arguments. *)
Inductive EngineFactory :=
| GsapSet (vars : Options)
| GsapFromTo (from_vars to_vars : Options)
| GsapTo (vars : Options)
| GsapFrom (vars : Options).

(** What the outside world observes: the calls made to the engine, and the
    runs of handlers that callers attached to a mount event. *)
Inductive Call :=
| RegisterPlugin (plugins : list Plugin)
| NewTimeline (vars : option Options) (h : Handle)
| NewTween (f : EngineFactory) (el : TweenTarget) (h : Handle)
| Invoke (h : Handle) (m : Method)
| CallerHandler (tag : nat) (h : Handle).

(** [MaybeRefOrGetter<T>]: a plain value, a ref, or a getter function that
    may read any ref. *)
Inductive MaybeRefOrGetter :=
| Plain (v : TweenTarget)
| RefOf (r : nat)
| Getter (g : gmap nat TweenTarget -> TweenTarget).

(** ** Closures of the source, as data *)

(** [(el) => { if (!el) return; tween = gsap.F(el, ...) }]: the variable
    [tween] it assigns (a cell of the store) and the factory it calls. *)
Record UpdateFactory := {
  uf_tween : nat;
  uf_factory : EngineFactory
}.

(** [updateFn = () => updateFactory(toValue(el))]. *)
Record Effect := {
  eff_el : MaybeRefOrGetter;
  eff_updateFactory : UpdateFactory
}.

(** Bodies of the functions given to an event hook: [(tl) => tl.kill()], or
    a handler of the caller's, opaque and recorded by its tag when it runs. *)
Inductive Handler :=
| KillArg
| Caller (tag : nat).

(** A function value given to an event hook: its identity and its body.  Two
    evaluations of one arrow function give two identities. *)
Definition Fn : Type := nat * Handler.

(** Callbacks given to [tryOnScopeDispose]:
    [() => tween?.kill()] of [activationFn], where [tween] is the function's
    own parameter, and the [offFn = () => off(fn)] that an event hook's [on]
    registers. *)
Inductive Cleanup :=
| KillOpt (tween : option Handle)
| HookOff (hook : nat) (fn : Fn).

(** Callback given to [tryOnMounted]: [() => onMount.trigger(tl)]. *)
Inductive MountedCb :=
| TriggerHook (hook : nat) (tl : Handle).

(** ** The world: engine, reactive store and lifecycle registrations *)

Record World := mkWorld {
  next_handle : nat;                          (* engine: next fresh handle *)
  trace : list Call;                          (* observed calls, oldest first *)
  refs : gmap nat TweenTarget;                (* reactive refs of the caller *)
  cells : list (option Handle);               (* the [let tween] variables *)
  watchers : list Effect;                     (* watchPostEffect *)
  disposers : list Cleanup;                   (* tryOnScopeDispose *)
  mounted_cbs : list MountedCb;               (* tryOnMounted *)
  event_hooks : list (list Fn);               (* createEventHook *)
  next_fn : nat                               (* identity of the next function *)
}.

Definition init : World :=
  mkWorld 0 [] ∅ [] [] [] [] [] 0.

Definition with_engine (n : nat) (t : list Call) (w : World) : World :=
  mkWorld n t (refs w) (cells w) (watchers w) (disposers w)
          (mounted_cbs w) (event_hooks w) (next_fn w).

Definition with_refs (r : gmap nat TweenTarget) (w : World) : World :=
  mkWorld (next_handle w) (trace w) r (cells w) (watchers w) (disposers w)
          (mounted_cbs w) (event_hooks w) (next_fn w).

Definition with_cells (c : list (option Handle)) (w : World) : World :=
  mkWorld (next_handle w) (trace w) (refs w) c (watchers w) (disposers w)
          (mounted_cbs w) (event_hooks w) (next_fn w).

Definition with_watchers (e : list Effect) (w : World) : World :=
  mkWorld (next_handle w) (trace w) (refs w) (cells w) e (disposers w)
          (mounted_cbs w) (event_hooks w) (next_fn w).

Definition with_disposers (d : list Cleanup) (w : World) : World :=
  mkWorld (next_handle w) (trace w) (refs w) (cells w) (watchers w) d
          (mounted_cbs w) (event_hooks w) (next_fn w).

Definition with_mounted_cbs (m : list MountedCb) (w : World) : World :=
  mkWorld (next_handle w) (trace w) (refs w) (cells w) (watchers w)
          (disposers w) m (event_hooks w) (next_fn w).

Definition with_event_hooks (h : list (list Fn)) (w : World) : World :=
  mkWorld (next_handle w) (trace w) (refs w) (cells w) (watchers w)
          (disposers w) (mounted_cbs w) h (next_fn w).

Definition with_next_fn (n : nat) (w : World) : World :=
  mkWorld (next_handle w) (trace w) (refs w) (cells w) (watchers w)
          (disposers w) (mounted_cbs w) (event_hooks w) n.

(** ** State-and-fault monad *)

(** A computation ends with a value and a new world, or with a fault (a
    thrown [TypeError]). *)
Inductive Result (A : Type) :=
| Ok (a : A) (w : World)
| Fault (msg : string).
Arguments Ok {A} a w.
Arguments Fault {A} msg.

Definition M (A : Type) : Type := World -> Result A.

Definition ret {A} (a : A) : M A := fun w => Ok a w.

Definition bind {A B} (c : M A) (k : A -> M B) : M B :=
  fun w => match c w with
           | Ok a w' => k a w'
           | Fault msg => Fault msg
           end.

Notation "x <- c1 ;; c2" := (bind c1 (fun x => c2))
  (at level 100, c1 at next level, right associativity).
Notation "c1 ;; c2" := (bind c1 (fun _ => c2))
  (at level 100, right associativity).

Definition gets {A} (f : World -> A) : M A := fun w => Ok (f w) w.
Definition modify (f : World -> World) : M unit := fun w => Ok tt (f w).
Definition fault {A} (msg : string) : M A := fun _ => Fault msg.

(** Runs [f] on every element of [l], in order, stopping at a fault. *)
Fixpoint for_each {A} (f : A -> M unit) (l : list A) : M unit :=
  match l with
  | [] => ret tt
  | x :: l' => f x ;; for_each f l'
  end.

(** ** The animation engine (gsap), as the composable sees it *)

(** The engine is opaque: each call is recorded, and each factory returns a
    handle that was never returned before.  Calling a method on [undefined]
    throws; the optional call [x?.m()] does nothing on [undefined]. *)
Module gsap.

Definition record (c : Call) : M unit :=
  modify (fun w => with_engine (next_handle w) (trace w ++ [c]) w).

Definition fresh : M Handle :=
  fun w => Ok (next_handle w) (with_engine (S (next_handle w)) (trace w) w).

Definition registerPlugin (plugins : list Plugin) : M unit :=
  record (RegisterPlugin plugins).

Definition timeline (vars : option Options) : M Handle :=
  h <- fresh ;; record (NewTimeline vars h) ;; ret h.

(** [gsap.set], [gsap.fromTo], [gsap.to], [gsap.from] on target [el]. *)
Definition tween (f : EngineFactory) (el : TweenTarget) : M Handle :=
  h <- fresh ;; record (NewTween f el h) ;; ret h.

(** [x.m()] *)
Definition call (x : option Handle) (m : Method) : M unit :=
  match x with
  | Some h => record (Invoke h m)
  | None => fault "TypeError: cannot read properties of undefined"
  end.

(** [x?.m()] *)
Definition call_opt (x : option Handle) (m : Method) : M unit :=
  match x with
  | Some h => record (Invoke h m)
  | None => ret tt
  end.

End gsap.

(** ** The host: reactivity and lifecycle

    The composable is used where composables are: in the setup of a
    component, with a current effect scope and a component instance, so that
    [tryOnScopeDispose] and [tryOnMounted] register their callback. *)

(** What a target reference resolves to in a given store of refs: the value
    itself, the ref's value, or the getter's result. *)
Definition resolve (el : MaybeRefOrGetter) (store : gmap nat TweenTarget)
  : TweenTarget :=
  match el with
  | Plain v => v
  | RefOf r => default TUndefined (store !! r)
  | Getter g => g store
  end.

(** [toValue(el)] *)
Definition toValue (el : MaybeRefOrGetter) : M TweenTarget :=
  gets (fun w => resolve el (refs w)).

(** [watchPostEffect(fn)] is [watchEffect] with [flush: 'post']: it registers
    the effect, and its runs, the first one too, are queued for the
    scheduler's post-flush, after the component has rendered ([flush_post]
    below); the call itself does not run [fn].  The source says as much of
    [activationFn]: its [updateFactory] is "the update function to run on
    mount". *)
Definition watchPostEffect (fn : Effect) : M unit :=
  modify (fun w => with_watchers (watchers w ++ [fn]) w).

Definition tryOnScopeDispose (fn : Cleanup) : M unit :=
  modify (fun w => with_disposers (disposers w ++ [fn]) w).

Definition tryOnMounted (fn : MountedCb) : M unit :=
  modify (fun w => with_mounted_cbs (mounted_cbs w ++ [fn]) w).

(** Evaluating an arrow function gives a function value with an identity of
    its own. *)
Definition new_fn (body : Handler) : M Fn :=
  fun w => Ok (next_fn w, body) (with_next_fn (S (next_fn w)) w).

Definition run_handler (fn : Handler) (arg : Handle) : M unit :=
  match fn with
  | KillArg => gsap.call (Some arg) Kill
  | Caller tag => gsap.record (CallerHandler tag arg)
  end.

(** [createEventHook()]: a set of handlers with [on], [off] and [trigger]. *)
Module EventHook.

Definition create : M nat :=
  fun w => Ok (length (event_hooks w))
              (with_event_hooks (event_hooks w ++ [[]]) w).

Definition handlers (hook : nat) : M (list Fn) :=
  gets (fun w => default [] (event_hooks w !! hook)).

Definition set_handlers (hook : nat) (fns : list Fn) : M unit :=
  modify (fun w => with_event_hooks (<[hook := fns]> (event_hooks w)) w).

(** Is the function [fn] in the set? *)
Definition has (fns : list Fn) (fn : Fn) : bool :=
  existsb (fun p => Nat.eqb p.1 fn.1) fns.

(** [off(fn)] deletes the function [fn] from the set, if it is there. *)
Definition off (hook : nat) (fn : Fn) : M unit :=
  fns <- handlers hook ;;
  set_handlers hook (filter (fun p => p.1 ≠ fn.1) fns).

(** [on(fn)] adds [fn] to the set, unless it is there, and registers its
    removal at scope end. *)
Definition on (hook : nat) (fn : Fn) : M unit :=
  fns <- handlers hook ;;
  set_handlers hook (if has fns fn then fns else fns ++ [fn]) ;;
  tryOnScopeDispose (HookOff hook fn).

(** [trigger(arg)] calls every handler of the set with [arg]. *)
Definition trigger (hook : nat) (arg : Handle) : M unit :=
  fns <- handlers hook ;;
  for_each (fun p => run_handler p.2 arg) fns.

End EventHook.

(** The captured variables [let tween] live in a store, as a closure that
    assigns one and the function that declared it share the variable. *)
Definition new_cell : M nat :=
  fun w => Ok (length (cells w)) (with_cells (cells w ++ [None]) w).

Definition read_cell (c : nat) : M (option Handle) :=
  gets (fun w => default None (cells w !! c)).

Definition write_cell (c : nat) (v : option Handle) : M unit :=
  modify (fun w => with_cells (<[c := v]> (cells w)) w).

(** ** The source: [activationFn] and [useGsap] *)

(** The body of the arrow functions passed as [updateFactory]:
    [(el) => { if (!el) return; tween = gsap.F(el, vars) }]. *)
Definition updateFactory (uf : UpdateFactory) (el : TweenTarget) : M unit :=
  if negb (truthy el) then ret tt
  else
    h <- gsap.tween (uf_factory uf) el ;;
    write_cell (uf_tween uf) (Some h).

(** [updateFn = () => updateFactory(toValue(el))]. *)
Definition updateFn (e : Effect) : M unit :=
  el <- toValue (eff_el e) ;;
  updateFactory (eff_updateFactory e) el.

(** [activationFn(el, tween, updateFactory)].  The parameter [tween] is the
    value that the caller's variable had at the call, and the teardown
    closure refers to this parameter. *)
Definition activationFn (el : MaybeRefOrGetter) (tween : option Handle)
    (uf : UpdateFactory) : M unit :=
  watchPostEffect {| eff_el := el; eff_updateFactory := uf |} ;;
  tryOnScopeDispose (KillOpt tween).

(** The control object returned by [timeline]. *)
Record TimelineControls := {
  tl : Handle;
  tlFn : Fn -> M unit;
  play : M unit;
  pause : M unit;
  restart : M unit;
  resume : M unit;
  progress : Q -> M unit;
  seek : SeekPos -> M unit;
  isActive : M unit
}.

Definition timeline (vars : option Options) : M TimelineControls :=
  tl <- gsap.timeline vars ;;
  onMount <- EventHook.create ;;
  tryOnMounted (TriggerHook onMount tl) ;;
  fn <- new_fn KillArg ;;
  EventHook.off onMount fn ;;
  ret {| tl := tl;
         tlFn := EventHook.on onMount;
         play := gsap.call (Some tl) Play;
         pause := gsap.call (Some tl) Pause;
         restart := gsap.call (Some tl) Restart;
         resume := gsap.call (Some tl) Resume;
         progress := fun value => gsap.call (Some tl) (Progress value);
         seek := fun value => gsap.call (Some tl) (Seek value);
         isActive := gsap.call (Some tl) IsActive |}.

Definition set (target : MaybeRefOrGetter) (vars : Options)
  : M (option Handle) :=
  tween <- new_cell ;;
  arg <- read_cell tween ;;
  activationFn target arg
    {| uf_tween := tween; uf_factory := GsapSet vars |} ;;
  read_cell tween.

Definition fromTo (target : MaybeRefOrGetter) (options : FromToOptions)
  : M (option Handle) :=
  tween <- new_cell ;;
  arg <- read_cell tween ;;
  activationFn target arg
    {| uf_tween := tween;
       uf_factory := GsapFromTo (opt_from options) (opt_to options) |} ;;
  read_cell tween.

Definition to (target : MaybeRefOrGetter) (vars : Options)
  : M (option Handle) :=
  tween <- new_cell ;;
  arg <- read_cell tween ;;
  activationFn target arg
    {| uf_tween := tween; uf_factory := GsapTo vars |} ;;
  read_cell tween.

Definition from (target : MaybeRefOrGetter) (vars : Options)
  : M (option Handle) :=
  tween <- new_cell ;;
  arg <- read_cell tween ;;
  activationFn target arg
    {| uf_tween := tween; uf_factory := GsapFrom vars |} ;;
  read_cell tween.

(** The object returned by [useGsap]. *)
Record UseGsapReturn := {
  use_timeline : option Options -> M TimelineControls;
  use_set : MaybeRefOrGetter -> Options -> M (option Handle);
  use_fromTo : MaybeRefOrGetter -> FromToOptions -> M (option Handle);
  use_to : MaybeRefOrGetter -> Options -> M (option Handle);
  use_from : MaybeRefOrGetter -> Options -> M (option Handle)
}.

(** [useGsap(plugins = [ScrollTrigger])]: an omitted argument takes the
    default. *)
Definition useGsap (plugins : option (list Plugin)) : M UseGsapReturn :=
  gsap.registerPlugin (default [ScrollTrigger] plugins) ;;
  ret {| use_timeline := timeline;
         use_set := set;
         use_fromTo := fromTo;
         use_to := to;
         use_from := from |}.

(** ** Host events *)

(** The scheduler's post-flush: the registered watchers run, in the order of
    their registration.  Vue runs a watcher at the first post-flush after its
    registration and then after a change of a value it read; a flush here
    may run a watcher at any time, which covers every such schedule. *)
Definition flush_post : M unit :=
  fns <- gets watchers ;;
  for_each updateFn fns.

(** The caller assigns a ref. *)
Definition write_ref (r : nat) (v : TweenTarget) : M unit :=
  modify (fun w => with_refs (<[r := v]> (refs w)) w).

Definition run_mounted (cb : MountedCb) : M unit :=
  match cb with
  | TriggerHook hook tl => EventHook.trigger hook tl
  end.

(** The component is mounted: the [onMounted] callbacks run, once. *)
Definition mount : M unit :=
  cbs <- gets mounted_cbs ;;
  modify (with_mounted_cbs []) ;;
  for_each run_mounted cbs.

Definition run_cleanup (fn : Cleanup) : M unit :=
  match fn with
  | KillOpt tween => gsap.call_opt tween Kill
  | HookOff hook f => EventHook.off hook f
  end.

(** The owning scope ends: its watchers stop and its cleanups run, once. *)
Definition scope_end : M unit :=
  fns <- gets disposers ;;
  modify (fun w => with_watchers [] (with_disposers [] w)) ;;
  for_each run_cleanup fns.

(** ** Vocabulary of the statements *)

(** The four ways to create a tween binding, with their arguments. *)
Inductive Binding :=
| BySet (vars : Options)
| ByFromTo (options : FromToOptions)
| ByTo (vars : Options)
| ByFrom (vars : Options).

Definition create (b : Binding) (target : MaybeRefOrGetter)
  : M (option Handle) :=
  match b with
  | BySet vars => set target vars
  | ByFromTo options => fromTo target options
  | ByTo vars => to target vars
  | ByFrom vars => from target vars
  end.

(** The engine factory that a binding calls. *)
Definition factory_of (b : Binding) : EngineFactory :=
  match b with
  | BySet vars => GsapSet vars
  | ByFromTo options => GsapFromTo (opt_from options) (opt_to options)
  | ByTo vars => GsapTo vars
  | ByFrom vars => GsapFrom vars
  end.

(** The watcher that a binding registers, whose variable [tween] is [cell]. *)
Definition watcher_of (b : Binding) (target : MaybeRefOrGetter) (cell : nat)
  : Effect :=
  {| eff_el := target;
     eff_updateFactory := {| uf_tween := cell; uf_factory := factory_of b |} |}.

(** The world right after a binding was created in [w]. *)
Definition created (b : Binding) (target : MaybeRefOrGetter) (w : World)
  : World :=
  mkWorld (next_handle w) (trace w) (refs w) (cells w ++ [None])
          (watchers w ++ [watcher_of b target (length (cells w))])
          (disposers w ++ [KillOpt None])
          (mounted_cbs w) (event_hooks w) (next_fn w).

(** The world after a watcher made a tween of the present target [el]. *)
Definition ticked (e : Effect) (el : TweenTarget) (w : World) : World :=
  mkWorld (S (next_handle w))
          (trace w ++ [NewTween (uf_factory (eff_updateFactory e)) el
                                (next_handle w)])
          (refs w)
          (<[uf_tween (eff_updateFactory e) := Some (next_handle w)]> (cells w))
          (watchers w) (disposers w) (mounted_cbs w) (event_hooks w)
          (next_fn w).

(** Assignments to refs, and a reactive tick: the caller assigns some refs
    and the scheduler then flushes. *)
Definition assign (store : gmap nat TweenTarget)
    (ws : list (nat * TweenTarget)) : gmap nat TweenTarget :=
  foldl (fun m p => <[p.1 := p.2]> m) store ws.

Definition write_refs (ws : list (nat * TweenTarget)) : M unit :=
  for_each (fun p => write_ref p.1 p.2) ws.

Definition tick (ws : list (nat * TweenTarget)) : M unit :=
  write_refs ws ;; flush_post.

(** The store after the assignments of several ticks. *)
Definition assign_all (store : gmap nat TweenTarget)
    (rounds : list (list (nat * TweenTarget))) : gmap nat TweenTarget :=
  foldl assign store rounds.

(** The target is absent (falsy) at the flush of every one of the ticks. *)
Fixpoint absent_at_each (el : MaybeRefOrGetter)
    (rounds : list (list (nat * TweenTarget)))
    (store : gmap nat TweenTarget) : bool :=
  match rounds with
  | [] => true
  | ws :: rounds' =>
      negb (truthy (resolve el (assign store ws)))
      && absent_at_each el rounds' (assign store ws)
  end.

(** The caller attaches a handler of its own to a mount event:
    [tlFn((tl) => ...)]. *)
Definition attach (on : Fn -> M unit) (tag : nat) : M unit :=
  fn <- new_fn (Caller tag) ;; on fn.

(** The operations of a timeline's control object. *)
Inductive ControlOp :=
| OpPlay
| OpPause
| OpRestart
| OpResume
| OpProgress (value : Q)
| OpSeek (value : SeekPos)
| OpIsActive.

Definition control (c : TimelineControls) (op : ControlOp) : M unit :=
  match op with
  | OpPlay => play c
  | OpPause => pause c
  | OpRestart => restart c
  | OpResume => resume c
  | OpProgress value => progress c value
  | OpSeek value => seek c value
  | OpIsActive => isActive c
  end.

Definition method_of (op : ControlOp) : Method :=
  match op with
  | OpPlay => Play
  | OpPause => Pause
  | OpRestart => Restart
  | OpResume => Resume
  | OpProgress value => Progress value
  | OpSeek value => Seek value
  | OpIsActive => IsActive
  end.

(** The control object of the timeline [h] whose mount event is [hook]. *)
Definition controls_of (h : Handle) (hook : nat) : TimelineControls :=
  {| tl := h;
     tlFn := EventHook.on hook;
     play := gsap.call (Some h) Play;
     pause := gsap.call (Some h) Pause;
     restart := gsap.call (Some h) Restart;
     resume := gsap.call (Some h) Resume;
     progress := fun value => gsap.call (Some h) (Progress value);
     seek := fun value => gsap.call (Some h) (Seek value);
     isActive := gsap.call (Some h) IsActive |}.

(** The world right after [timeline(vars)] was called in [w]. *)
Definition timeline_made (vars : option Options) (w : World) : World :=
  mkWorld (S (next_handle w))
          (trace w ++ [NewTimeline vars (next_handle w)])
          (refs w) (cells w) (watchers w) (disposers w)
          (mounted_cbs w
             ++ [TriggerHook (length (event_hooks w)) (next_handle w)])
          (event_hooks w ++ [[]])
          (S (next_fn w)).

(** What a component does with the composable before its scope ends. *)
Inductive Action :=
| CallUseGsap (plugins : option (list Plugin))
| CallTimeline (vars : option Options)
| CallCreate (b : Binding) (target : MaybeRefOrGetter)
| CallOn (hook : nat) (tag : nat)
| CallMethod (h : Handle) (m : Method)
| Assign (r : nat) (v : TweenTarget)
| Flush
| Mount.

Definition perform (a : Action) : M unit :=
  match a with
  | CallUseGsap plugins => useGsap plugins ;; ret tt
  | CallTimeline vars => timeline vars ;; ret tt
  | CallCreate b target => create b target ;; ret tt
  | CallOn hook tag => attach (EventHook.on hook) tag
  | CallMethod h m => gsap.call (Some h) m
  | Assign r v => write_ref r v
  | Flush => flush_post
  | Mount => mount
  end.

(** A call is sound when it is not a tween made for an absent target. *)
Definition sound_call (c : Call) : Prop :=
  match c with
  | NewTween _ el _ => truthy el = true
  | _ => True
  end.

Definition targets_present (w : World) : Prop := Forall sound_call (trace w).

(** A cleanup is inert when it cannot call the engine. *)
Definition inert (fn : Cleanup) : Prop :=
  match fn with
  | KillOpt (Some _) => False
  | KillOpt None | HookOff _ _ => True
  end.

Definition teardown_inert (w : World) : Prop := Forall inert (disposers w).

(** ** Baked animations *)

(** [AnimationOptions = BakedPresets]: the name of a preset that the build
    registered. *)
Definition AnimationOptions := string.

(** [UseBakedAnimationOptions] *)
Record UseBakedAnimationOptions := {
  animationOptions : AnimationOptions;
  tweenValues : option Options
}.

(** Modelled from the spec: the merge of the preset resolver, whose function
    is not among the sources (only the type of its options is).  Overrides,
    when present, are laid over the preset's defaults; a field of the
    overrides replaces the preset's field of that name whole. *)
Definition merge_options (preset : Options) (overrides : option Options)
  : Options :=
  match overrides with
  | Some o => o ∪ preset
  | None => preset
  end.

(** Modelled from the spec: the preset resolver, absent from the sources.
    The preset named by [animationOptions] is looked up in the registry of
    the build and merged with the caller's [tweenValues]. *)
Definition resolve_preset (registry : AnimationOptions -> Options)
    (o : UseBakedAnimationOptions) : Options :=
  merge_options (registry (animationOptions o)) (tweenValues o).

(** ** Vocabulary of the further properties *)

(** The variable [tween] that a watcher assigns. *)
Definition cell_of (e : Effect) : nat := uf_tween (eff_updateFactory e).

(** The engine calls of the watchers [fns], run one after the other in a
    store of refs: one tween for each watcher whose target is present, with
    the handles that the engine gives from [h] on. *)
Fixpoint run_calls (fns : list Effect) (store : gmap nat TweenTarget)
    (h : Handle) : list Call :=
  match fns with
  | [] => []
  | e :: fns' =>
      if truthy (resolve (eff_el e) store)
      then NewTween (uf_factory (eff_updateFactory e))
                    (resolve (eff_el e) store) h
           :: run_calls fns' store (S h)
      else run_calls fns' store h
  end.

(** The engine calls of one binding over some ticks: one tween for each tick
    at whose flush the target is present. *)
Fixpoint life_calls (f : EngineFactory) (el : MaybeRefOrGetter)
    (rounds : list (list (nat * TweenTarget)))
    (store : gmap nat TweenTarget) (h : Handle) : list Call :=
  match rounds with
  | [] => []
  | ws :: rounds' =>
      if truthy (resolve el (assign store ws))
      then NewTween f (resolve el (assign store ws)) h
           :: life_calls f el rounds' (assign store ws) (S h)
      else life_calls f el rounds' (assign store ws) h
  end.

(** The value of the binding's variable after those ticks: the tween of the
    last tick at which the target was present, or what it held before. *)
Fixpoint life_tween (el : MaybeRefOrGetter)
    (rounds : list (list (nat * TweenTarget)))
    (store : gmap nat TweenTarget) (h : Handle) (held : option Handle)
  : option Handle :=
  match rounds with
  | [] => held
  | ws :: rounds' =>
      if truthy (resolve el (assign store ws))
      then life_tween el rounds' (assign store ws) (S h) (Some h)
      else life_tween el rounds' (assign store ws) h held
  end.

(** The watchers of the scope assign variables that exist and are pairwise
    distinct. *)
Definition own_variables (w : World) : Prop :=
  NoDup (map cell_of (watchers w))
  /\ Forall (fun e => cell_of e < length (cells w)) (watchers w).

(** A variable holds [undefined] or a tween that the trace shows the engine
    to have made for a present target. *)
Definition made_tween (t : list Call) (held : option Handle) : Prop :=
  match held with
  | None => True
  | Some h => exists f el, In (NewTween f el h) t /\ truthy el = true
  end.

Definition variables_hold_tweens (w : World) : Prop :=
  Forall (made_tween (trace w)) (cells w).

(** The timeline [h] has no trigger of its mount event pending: the engine
    gave [h] out already, and no mounted callback of the component holds it. *)
Definition mounted_cb_spares (h : Handle) (cb : MountedCb) : Prop :=
  match cb with
  | TriggerHook _ h' => h' <> h
  end.

Definition no_trigger_pending (h : Handle) (w : World) : Prop :=
  h < next_handle w /\ Forall (mounted_cb_spares h) (mounted_cbs w).

(** A call is not the run of a caller's handler with the timeline [h]. *)
Definition spares_handlers (h : Handle) (c : Call) : Prop :=
  match c with
  | CallerHandler _ h' => h' <> h
  | _ => True
  end.

(** Since the world [w0], no caller's handler ran with the timeline [h]. *)
Definition no_handler_ran_since (h : Handle) (w0 w : World) : Prop :=
  exists added,
    trace w = trace w0 ++ added /\ Forall (spares_handlers h) added.

(** What holds while a program runs after the mount of timeline [h]. *)
Definition late (h : Handle) (w0 w : World) : Prop :=
  no_trigger_pending h w /\ no_handler_ran_since h w0 w.

(** Whether two resolved targets are the same value, as [Object.is] tells
    it: the reactivity runtime re-runs a watcher after a value that it read
    was assigned a value that is not the same. *)
Definition same_target (a b : TweenTarget) : bool :=
  match a, b with
  | TUndefined, TUndefined => true
  | TNull, TNull => true
  | TSelector s, TSelector t => String.eqb s t
  | TElement i, TElement j => Nat.eqb i j
  | _, _ => false
  end.

(** The ticks are runs that the scheduler makes: the first run of the
    watcher, and then ticks at each of which the target resolves to a value
    that is not the same as at the tick before ([seen]). *)
Fixpoint changes_at_each (el : MaybeRefOrGetter)
    (rounds : list (list (nat * TweenTarget)))
    (store : gmap nat TweenTarget) (seen : option TweenTarget) : bool :=
  match rounds with
  | [] => true
  | ws :: rounds' =>
      match seen with
      | Some u => negb (same_target u (resolve el (assign store ws)))
      | None => true
      end
      && changes_at_each el rounds' (assign store ws)
           (Some (resolve el (assign store ws)))
  end.

(** The handle that a call of the trace made, when it is a creation. *)
Definition created_by (c : Call) : option Handle :=
  match c with
  | NewTimeline _ h | NewTween _ _ h => Some h
  | _ => None
  end.

(** The creations of the trace made the handles 0, 1, ... in this order, up
    to the next one of the engine: each handle was made once. *)
Definition handles_made_once (w : World) : Prop :=
  omap created_by (trace w) = seq 0 (next_handle w).

(** ** Sample inputs *)

Definition move_right : Options := {[ "x"%string := VNum (100 # 1) ]}.
Definition at_origin : Options := {[ "x"%string := VNum (0 # 1) ]}.
Definition transparent : Options := {[ "opacity"%string := VNum (0 # 1) ]}.

(** Three ticks at which ref 0 stays unset or [null]: the first run, an
    assignment of [null] to it, an assignment to another ref. *)
Definition idle_ticks : list (list (nat * TweenTarget)) :=
  [[]; [(0, TNull)]; [(1, TElement 5)]].

(** * Proofs *)

(** ** Basic facts on the monad and the primitives *)

(** A loop whose body keeps an invariant and does not fault keeps it too. *)
Lemma for_each_inv {A} (P : World -> Prop) (f : A -> M unit) :
  (forall x w, P w -> exists w', f x w = Ok tt w' /\ P w') ->
  forall l w, P w -> exists w', for_each f l w = Ok tt w' /\ P w'.
Proof.
  intros Hf l. induction l as [|x l IH]; intros w Hw; simpl.
  - exists w. split; [reflexivity | exact Hw].
  - destruct (Hf x w Hw) as (w1 & E1 & H1).
    destruct (IH w1 H1) as (w2 & E2 & H2).
    exists w2. unfold bind. rewrite E1. split; assumption.
Qed.

Lemma create_eq (b : Binding) (target : MaybeRefOrGetter) (w : World) :
  create b target w = Ok None (created b target w).
Proof.
  destruct b; unfold create, set, fromTo, to, from, activationFn,
    watchPostEffect, tryOnScopeDispose, new_cell, read_cell, bind, gets,
    modify; simpl;
    rewrite (list_lookup_middle (cells w) [] None (length (cells w)) eq_refl);
    reflexivity.
Qed.

Lemma updateFn_absent (e : Effect) (w : World) :
  truthy (resolve (eff_el e) (refs w)) = false ->
  updateFn e w = Ok tt w.
Proof.
  intros H. unfold updateFn, toValue, updateFactory, bind, gets.
  rewrite H. reflexivity.
Qed.

Lemma updateFn_present (e : Effect) (w : World) :
  truthy (resolve (eff_el e) (refs w)) = true ->
  updateFn e w = Ok tt (ticked e (resolve (eff_el e) (refs w)) w).
Proof.
  intros H. unfold updateFn, toValue, updateFactory, bind, gets.
  rewrite H. reflexivity.
Qed.

Lemma write_refs_eq (ws : list (nat * TweenTarget)) (w : World) :
  write_refs ws w = Ok tt (with_refs (assign (refs w) ws) w).
Proof.
  revert w. induction ws as [|p ws IH]; intros w.
  - destruct w; reflexivity.
  - unfold write_refs in *. simpl. unfold bind, write_ref, modify.
    rewrite IH. reflexivity.
Qed.

Lemma insert_last {A} (l : list A) (x y : A) :
  <[length l := y]> (l ++ [x]) = l ++ [y].
Proof.
  rewrite insert_app_r_alt by lia. rewrite Nat.sub_diag. reflexivity.
Qed.

Lemma lookup_last {A} (l : list A) (x : A) :
  (l ++ [x]) !! length l = Some x.
Proof. apply list_lookup_middle. reflexivity. Qed.

(** A flush in a scope with one watcher is one run of that watcher. *)
Lemma flush_post_single (e : Effect) (w : World) :
  watchers w = [e] -> flush_post w = updateFn e w.
Proof.
  intros H. unfold flush_post, bind, gets. rewrite H. simpl. unfold bind.
  destruct (updateFn e w) as [[] w'|msg]; reflexivity.
Qed.

(** A tick at which every watcher's target is absent changes nothing but
    the refs that were assigned. *)
Lemma flush_post_absent (w : World) :
  Forall (fun e => truthy (resolve (eff_el e) (refs w)) = false) (watchers w) ->
  flush_post w = Ok tt w.
Proof.
  unfold flush_post, bind, gets. generalize (watchers w) as l.
  induction l as [|e l IH]; intros H; simpl.
  - reflexivity.
  - inversion H as [|? ? He Hl]; subst.
    unfold bind. rewrite (updateFn_absent e w He). apply IH. exact Hl.
Qed.

Lemma tick_absent (e : Effect) (ws : list (nat * TweenTarget)) (w : World) :
  watchers w = [e] ->
  truthy (resolve (eff_el e) (assign (refs w) ws)) = false ->
  tick ws w = Ok tt (with_refs (assign (refs w) ws) w).
Proof.
  intros Hw Ha. unfold tick, bind. rewrite write_refs_eq.
  rewrite (flush_post_single e) by exact Hw.
  apply updateFn_absent. exact Ha.
Qed.

Lemma tick_present (e : Effect) (ws : list (nat * TweenTarget)) (w : World) :
  watchers w = [e] ->
  truthy (resolve (eff_el e) (assign (refs w) ws)) = true ->
  tick ws w =
    Ok tt (ticked e (resolve (eff_el e) (assign (refs w) ws))
                  (with_refs (assign (refs w) ws) w)).
Proof.
  intros Hw Ha. unfold tick, bind. rewrite write_refs_eq.
  rewrite (flush_post_single e) by exact Hw.
  apply (updateFn_present e (with_refs (assign (refs w) ws) w)). exact Ha.
Qed.

Lemma ticks_absent (e : Effect) (rounds : list (list (nat * TweenTarget))) :
  forall w,
    watchers w = [e] ->
    absent_at_each (eff_el e) rounds (refs w) = true ->
    for_each tick rounds w = Ok tt (with_refs (assign_all (refs w) rounds) w).
Proof.
  induction rounds as [|ws rounds IH]; intros w Hw Ha; simpl in *.
  - destruct w; reflexivity.
  - apply andb_true_iff in Ha as [Ha1 Ha2].
    apply negb_true_iff in Ha1.
    unfold bind. rewrite (tick_absent e) by assumption.
    rewrite IH by assumption. reflexivity.
Qed.

(** The cleanup that [activationFn] registers does nothing, whatever the
    world it runs in. *)
Lemma run_cleanup_undefined (w : World) :
  run_cleanup (KillOpt None) w = Ok tt w.
Proof. reflexivity. Qed.

(** *** The timeline *)

Lemma timeline_eq (vars : option Options) (w : World) :
  timeline vars w =
    Ok (controls_of (next_handle w) (length (event_hooks w)))
       (timeline_made vars w).
Proof.
  unfold timeline, gsap.timeline, gsap.fresh, gsap.record, EventHook.create,
    tryOnMounted, new_fn, EventHook.off, EventHook.handlers,
    EventHook.set_handlers, bind, ret, gets, modify. simpl.
  rewrite lookup_last. simpl. rewrite insert_last. reflexivity.
Qed.

Lemma control_eq (h : Handle) (hook : nat) (op : ControlOp) (w : World) :
  control (controls_of h hook) op w =
    Ok tt (with_engine (next_handle w)
                       (trace w ++ [Invoke h (method_of op)]) w).
Proof. destruct op; reflexivity. Qed.

Lemma controls_run (h : Handle) (hook : nat) (ops : list ControlOp) :
  forall w,
    for_each (control (controls_of h hook)) ops w =
      Ok tt (with_engine (next_handle w)
               (trace w ++ map (fun op => Invoke h (method_of op)) ops) w).
Proof.
  induction ops as [|op ops IH]; intros w; simpl.
  - rewrite app_nil_r. destruct w; reflexivity.
  - unfold bind. rewrite control_eq, IH. simpl.
    rewrite <- app_assoc. reflexivity.
Qed.

Lemma has_fresh (fns : list Fn) (fn : Fn) :
  Forall (fun p => p.1 < fn.1) fns -> EventHook.has fns fn = false.
Proof.
  induction 1 as [|p fns Hp _ IH]; simpl.
  - reflexivity.
  - rewrite IH, orb_false_r. apply Nat.eqb_neq. lia.
Qed.

(** One handler of the caller's attached to the last hook that was created,
    whose functions are all older than the next one. *)
Lemma attach_eq (hooks : list (list Fn)) (fns : list Fn) (tag : nat)
    (w : World) :
  event_hooks w = hooks ++ [fns] ->
  Forall (fun p => p.1 < next_fn w) fns ->
  attach (EventHook.on (length hooks)) tag w =
    Ok tt (mkWorld (next_handle w) (trace w) (refs w) (cells w) (watchers w)
             (disposers w
                ++ [HookOff (length hooks) (next_fn w, Caller tag)])
             (mounted_cbs w) (hooks ++ [fns ++ [(next_fn w, Caller tag)]])
             (S (next_fn w))).
Proof.
  intros Hw Hf.
  unfold attach, EventHook.on, new_fn, EventHook.handlers,
    EventHook.set_handlers, tryOnScopeDispose, bind, gets, modify. simpl.
  rewrite Hw, lookup_last. simpl.
  rewrite (has_fresh fns (next_fn w, Caller tag) Hf).
  rewrite insert_last. reflexivity.
Qed.

(** Handlers attached through [tlFn]: the hook's set grows by one function
    for each, and nothing of the engine or of the mount changes. *)
Lemma subscribe_run (hooks : list (list Fn)) (tags : list nat) :
  forall (fns : list Fn) (w : World),
    event_hooks w = hooks ++ [fns] ->
    Forall (fun p => p.1 < next_fn w) fns ->
    exists fns' w',
      for_each (attach (EventHook.on (length hooks))) tags w = Ok tt w'
      /\ event_hooks w' = hooks ++ [fns ++ fns']
      /\ map snd fns' = map Caller tags
      /\ trace w' = trace w
      /\ next_handle w' = next_handle w
      /\ mounted_cbs w' = mounted_cbs w.
Proof.
  induction tags as [|t tags IH]; intros fns w Hw Hf; simpl.
  - exists [], w. rewrite app_nil_r. repeat split; assumption.
  - unfold bind. rewrite (attach_eq hooks fns t w Hw Hf).
    edestruct (IH (fns ++ [(next_fn w, Caller t)])) as
      (fns' & w' & E & Hh & Hm & Ht & Hn & Hc); [| |rewrite E].
    + reflexivity.
    + simpl. apply Forall_app. split.
      * eapply Forall_impl; [exact Hf|]. simpl. intros p Hp. lia.
      * repeat constructor.
    + exists ((next_fn w, Caller t) :: fns'), w'. simpl in *.
      rewrite <- app_assoc in Hh. simpl in Hh.
      repeat split; try assumption. rewrite Hm. reflexivity.
Qed.

(** Triggering a hook whose handlers are all the caller's runs them, each
    with the argument of the trigger. *)
Lemma handlers_run (arg : Handle) (fns : list Fn) (tags : list nat) :
  map snd fns = map Caller tags ->
  forall w,
    for_each (fun p => run_handler p.2 arg) fns w =
      Ok tt (with_engine (next_handle w)
               (trace w ++ map (fun t => CallerHandler t arg) tags) w).
Proof.
  revert tags. induction fns as [|[i fn] fns IH]; intros [|t tags] H w;
    simpl in *; try discriminate.
  - rewrite app_nil_r. destruct w; reflexivity.
  - injection H as -> H. unfold bind. simpl.
    unfold gsap.record, modify. rewrite (IH tags H). simpl.
    rewrite <- app_assoc. reflexivity.
Qed.

(** *** Programs of a caller, and what scope end can do *)

Lemma for_each_frame {A B} (g : World -> B) (f : A -> M unit) :
  (forall x w, exists w', f x w = Ok tt w' /\ g w' = g w) ->
  forall l w, exists w', for_each f l w = Ok tt w' /\ g w' = g w.
Proof.
  intros Hf l w.
  destruct (for_each_inv (fun w' => g w' = g w) f) with (l := l) (w := w)
    as (w' & E & H).
  - intros x w1 H1. destruct (Hf x w1) as (w2 & E2 & H2).
    exists w2. split; [exact E2 | congruence].
  - reflexivity.
  - exists w'. split; assumption.
Qed.

Lemma updateFn_disposers (e : Effect) (w : World) :
  exists w', updateFn e w = Ok tt w' /\ disposers w' = disposers w.
Proof.
  destruct (truthy (resolve (eff_el e) (refs w))) eqn:H.
  - rewrite updateFn_present by exact H. eexists. split; reflexivity.
  - rewrite updateFn_absent by exact H. eexists. split; reflexivity.
Qed.

Lemma flush_post_disposers (w : World) :
  exists w', flush_post w = Ok tt w' /\ disposers w' = disposers w.
Proof.
  unfold flush_post, bind, gets.
  apply (for_each_frame disposers updateFn updateFn_disposers).
Qed.

Lemma run_handler_disposers (arg : Handle) (p : Fn) (w : World) :
  exists w', run_handler p.2 arg w = Ok tt w' /\ disposers w' = disposers w.
Proof. destruct p as [i [|tag]]; eexists; split; reflexivity. Qed.

Lemma run_mounted_disposers (cb : MountedCb) (w : World) :
  exists w', run_mounted cb w = Ok tt w' /\ disposers w' = disposers w.
Proof.
  destruct cb as [hook h].
  unfold run_mounted, EventHook.trigger, EventHook.handlers, bind, gets.
  apply (for_each_frame disposers (fun p => run_handler p.2 h)).
  apply run_handler_disposers.
Qed.

Lemma mount_disposers (w : World) :
  exists w', mount w = Ok tt w' /\ disposers w' = disposers w.
Proof.
  unfold mount, bind, gets, modify.
  destruct (for_each_frame disposers run_mounted run_mounted_disposers
              (mounted_cbs w) (with_mounted_cbs [] w)) as (w' & E & H).
  exists w'. split; [exact E | exact H].
Qed.

Lemma Forall_inert_snoc (l : list Cleanup) (fn : Cleanup) :
  Forall inert l -> inert fn -> Forall inert (l ++ [fn]).
Proof. intros Hl Hfn. apply Forall_app. split; [exact Hl | repeat constructor; exact Hfn]. Qed.

(** Whatever the caller does, no cleanup that could call the engine is ever
    registered. *)
Lemma perform_inert (a : Action) (w : World) :
  teardown_inert w ->
  exists w', perform a w = Ok tt w' /\ teardown_inert w'.
Proof.
  unfold teardown_inert. intros H. destruct a as [p|vars|b t|hook tag|h m|r v| |];
    unfold perform, bind.
  - eexists. split; [reflexivity | exact H].
  - rewrite timeline_eq. eexists. split; [reflexivity | exact H].
  - rewrite create_eq. eexists. split; [reflexivity |].
    simpl. apply Forall_inert_snoc; [exact H | exact I].
  - eexists. split; [reflexivity |].
    simpl. apply Forall_inert_snoc; [exact H | exact I].
  - eexists. split; [reflexivity | exact H].
  - eexists. split; [reflexivity | exact H].
  - destruct (flush_post_disposers w) as (w' & E & Hd).
    exists w'. split; [exact E | rewrite Hd; exact H].
  - destruct (mount_disposers w) as (w' & E & Hd).
    exists w'. split; [exact E | rewrite Hd; exact H].
Qed.

Lemma program_inert (acts : list Action) (w : World) :
  teardown_inert w ->
  exists w', for_each perform acts w = Ok tt w' /\ teardown_inert w'.
Proof. apply (for_each_inv teardown_inert perform perform_inert). Qed.

Lemma cleanups_inert (fns : list Cleanup) :
  Forall inert fns ->
  forall w, exists w', for_each run_cleanup fns w = Ok tt w'
                       /\ trace w' = trace w.
Proof.
  induction 1 as [|fn fns Hfn _ IH]; intros w; simpl.
  - exists w. split; reflexivity.
  - unfold bind. destruct fn as [[h|]|hook f]; simpl in *.
    + destruct Hfn.
    + apply IH.
    + unfold EventHook.off, EventHook.handlers, EventHook.set_handlers, bind,
        gets, modify. simpl.
      match goal with |- context [for_each run_cleanup fns ?w1] =>
        destruct (IH w1) as (w' & E & Ht) end.
      exists w'. split; [exact E | exact Ht].
Qed.

(** With inert cleanups only, scope end does not reach the engine. *)
Lemma scope_end_inert (w : World) :
  teardown_inert w ->
  exists w', scope_end w = Ok tt w' /\ trace w' = trace w.
Proof.
  intros H. unfold scope_end, bind, gets, modify.
  destruct (cleanups_inert (disposers w) H
              (with_watchers [] (with_disposers [] w))) as (w' & E & Ht).
  exists w'. split; [exact E | exact Ht].
Qed.

(** Whatever the caller does, the engine never makes a tween for an absent
    target. *)
Lemma Forall_sound_snoc (t : list Call) (c : Call) :
  Forall sound_call t -> sound_call c -> Forall sound_call (t ++ [c]).
Proof.
  intros Ht Hc. apply Forall_app. split; [exact Ht | repeat constructor; exact Hc].
Qed.

Lemma updateFn_present_targets (e : Effect) (w : World) :
  targets_present w ->
  exists w', updateFn e w = Ok tt w' /\ targets_present w'.
Proof.
  unfold targets_present. intros H.
  destruct (truthy (resolve (eff_el e) (refs w))) eqn:Ht.
  - rewrite updateFn_present by exact Ht. eexists. split; [reflexivity|].
    simpl. apply Forall_sound_snoc; [exact H | exact Ht].
  - rewrite updateFn_absent by exact Ht. eexists. split; [reflexivity | exact H].
Qed.

Lemma run_handler_present_targets (arg : Handle) (p : Fn) (w : World) :
  targets_present w ->
  exists w', run_handler p.2 arg w = Ok tt w' /\ targets_present w'.
Proof.
  unfold targets_present. intros H.
  destruct p as [i [|tag]]; eexists; (split; [reflexivity|]); simpl;
    apply Forall_sound_snoc; [exact H | exact I | exact H | exact I].
Qed.

Lemma run_mounted_present_targets (cb : MountedCb) (w : World) :
  targets_present w ->
  exists w', run_mounted cb w = Ok tt w' /\ targets_present w'.
Proof.
  destruct cb as [hook h].
  unfold run_mounted, EventHook.trigger, EventHook.handlers, bind, gets.
  apply (for_each_inv targets_present (fun p => run_handler p.2 h)).
  apply run_handler_present_targets.
Qed.

Lemma perform_present_targets (a : Action) (w : World) :
  targets_present w ->
  exists w', perform a w = Ok tt w' /\ targets_present w'.
Proof.
  intros H. destruct a as [p|vars|b t|hook tag|h m|r v| |];
    unfold perform, bind.
  - eexists. split; [reflexivity|].
    apply Forall_sound_snoc; [exact H | exact I].
  - rewrite timeline_eq. eexists. split; [reflexivity|].
    apply Forall_sound_snoc; [exact H | exact I].
  - rewrite create_eq. eexists. split; [reflexivity | exact H].
  - eexists. split; [reflexivity | exact H].
  - eexists. split; [reflexivity|].
    apply Forall_sound_snoc; [exact H | exact I].
  - eexists. split; [reflexivity | exact H].
  - unfold flush_post, bind, gets.
    apply (for_each_inv targets_present updateFn updateFn_present_targets).
    exact H.
  - unfold mount, bind, gets, modify.
    apply (for_each_inv targets_present run_mounted
             run_mounted_present_targets).
    exact H.
Qed.

Lemma program_present_targets (acts : list Action) (w : World) :
  targets_present w ->
  exists w', for_each perform acts w = Ok tt w' /\ targets_present w'.
Proof.
  apply (for_each_inv targets_present perform perform_present_targets).
Qed.

(** * The claims *)

(** C1 (the code departs from it): a binding registers one teardown
    callback when it is created and none when it runs, and that callback does
    not fault; but it holds the value [undefined] that [tween] had when
    [activationFn] was called, so at scope end the engine's [kill] is not
    invoked on the handle that is current: the trace stays as it was.  In
    whatever world the registered cleanups run, they change nothing. *)
Theorem C1_teardown_misses_current_handle
    (b : Binding) (target : MaybeRefOrGetter) (w : World)
    (ws : list (nat * TweenTarget)) (v : TweenTarget) :
  watchers w = [] ->
  disposers w = [] ->
  resolve target (assign (refs w) ws) = v ->
  truthy v = true ->
  exists w1 w2 w3,
    create b target w = Ok None w1
    /\ disposers w1 = [KillOpt None]
    /\ tick ws w1 = Ok tt w2
    /\ disposers w2 = [KillOpt None]
    /\ cells w2 !! length (cells w) = Some (Some (next_handle w))
    /\ scope_end w2 = Ok tt w3
    /\ trace w3 = trace w2
    /\ trace w2 = trace w ++ [NewTween (factory_of b) v (next_handle w)]
    /\ (forall w', for_each run_cleanup (disposers w1) w' = Ok tt w').
Proof.
  intros Hw Hd Hv Ht.
  destruct w as [n t r c ws0 d m hk f]. simpl in Hw, Hd, Hv. subst ws0 d.
  set (w := mkWorld n t r c [] [] m hk f).
  set (e := watcher_of b target (length c)).
  assert (Hc : watchers (created b target w) = [e]) by reflexivity.
  assert (Hp : truthy (resolve (eff_el e)
                 (assign (refs (created b target w)) ws)) = true)
    by (simpl; rewrite Hv; exact Ht).
  exists (created b target w),
         (ticked e v (with_refs (assign r ws) (created b target w))).
  eexists.
  split; [apply create_eq|].
  split; [reflexivity|].
  split; [rewrite (tick_present e ws _ Hc Hp); simpl; rewrite Hv; reflexivity|].
  split; [reflexivity|].
  split; [simpl; rewrite insert_last; apply lookup_last|].
  split; [reflexivity|].
  split; [reflexivity|].
  split; [reflexivity|].
  intros w'. change (disposers (created b target w)) with [KillOpt None].
  cbn [for_each]. unfold bind. rewrite run_cleanup_undefined. reflexivity.
Qed.

(** The failing run of C1: [to(ref, {x: 100})] with the ref unset, then the
    ref is given an element and the watcher makes tween 0, then the scope
    ends: no [kill] reaches tween 0. *)
Lemma C1_teardown_misses_current_handle_witness :
  watchers init = []
  /\ disposers init = []
  /\ resolve (RefOf 0) (assign (refs init) [(0, TElement 1)]) = TElement 1
  /\ truthy (TElement 1) = true
  /\ exists w1 w2 w3,
       create (ByTo move_right) (RefOf 0) init = Ok None w1
       /\ disposers w1 = [KillOpt None]
       /\ tick [(0, TElement 1)] w1 = Ok tt w2
       /\ disposers w2 = [KillOpt None]
       /\ cells w2 !! 0 = Some (Some 0)
       /\ scope_end w2 = Ok tt w3
       /\ trace w3 = trace w2
       /\ trace w2 = [NewTween (GsapTo move_right) (TElement 1) 0]
       /\ (forall w', for_each run_cleanup (disposers w1) w' = Ok tt w').
Proof.
  repeat (split; [reflexivity|]).
  apply (C1_teardown_misses_current_handle (ByTo move_right) (RefOf 0) init
           [(0, TElement 1)] (TElement 1)); reflexivity.
Defined.

(** C2: the watcher that a binding ([set], [to], [from], [fromTo]) registers
    leaves the whole world as it is, the engine's trace included, at every
    run in which the target resolves to [undefined], [null] or another
    falsy value.  And whatever a component does with the composable, each
    tween in the engine's trace was made for a present target. *)
Theorem C2_absent_target_never_reaches_engine
    (b : Binding) (target : MaybeRefOrGetter) (w0 w : World)
    (acts : list Action) :
  truthy (resolve target (refs w)) = false ->
  (exists w1 e,
      create b target w0 = Ok None w1
      /\ watchers w1 = watchers w0 ++ [e]
      /\ updateFn e w = Ok tt w)
  /\ (exists w',
         for_each perform acts init = Ok tt w'
         /\ forall f el h, In (NewTween f el h) (trace w') ->
                           truthy el = true).
Proof.
  intros H. split.
  - exists (created b target w0), (watcher_of b target (length (cells w0))).
    split; [apply create_eq|]. split; [reflexivity|].
    apply updateFn_absent. exact H.
  - destruct (program_present_targets acts init) as (w' & E & Hp);
      [constructor|].
    exists w'. split; [exact E|].
    intros f el h Hin. unfold targets_present in Hp.
    rewrite List.Forall_forall in Hp. exact (Hp _ Hin).
Qed.

(** C2 at work: [set] on a ref that is unset, and a component that creates
    the binding, flushes, sets the ref, flushes, clears it and flushes. *)
Lemma C2_absent_target_never_reaches_engine_witness :
  truthy (resolve (RefOf 3) (refs init)) = false
  /\ (exists w1 e,
         create (BySet transparent) (RefOf 3) init = Ok None w1
         /\ watchers w1 = watchers init ++ [e]
         /\ updateFn e init = Ok tt init)
  /\ (exists w',
         for_each perform
           [CallCreate (BySet transparent) (RefOf 3); Flush;
            Assign 3 (TElement 1); Flush; Assign 3 TNull; Flush] init
         = Ok tt w'
         /\ forall f el h, In (NewTween f el h) (trace w') ->
                           truthy el = true).
Proof.
  split; [reflexivity|].
  apply (C2_absent_target_never_reaches_engine (BySet transparent) (RefOf 3)
           init init).
  reflexivity.
Defined.

(** C3 (the code departs from it): [timeline()] makes the handler
    [(tl) => tl.kill()] and hands it to the hook's [off], which deletes a
    function from the set, and not to [on]: the hook, new and empty, stays
    empty, so no handler is pre-registered.  One mounted callback triggers the
    hook with the timeline; at mount the handlers that the caller attached
    through [tlFn] run, each with the timeline, and that is all the trace
    gains: [kill] is not invoked on the timeline. *)
Theorem C3_kill_handler_is_never_attached
    (vars : option Options) (w : World) (tags : list nat) :
  mounted_cbs w = [] ->
  exists c w1 w2 w3,
    timeline vars w = Ok c w1
    /\ tl c = next_handle w
    /\ event_hooks w1 = event_hooks w ++ [[]]
    /\ mounted_cbs w1 = [TriggerHook (length (event_hooks w)) (tl c)]
    /\ for_each (attach (tlFn c)) tags w1 = Ok tt w2
    /\ mount w2 = Ok tt w3
    /\ trace w3 = trace w ++ NewTimeline vars (tl c)
                            :: map (fun t => CallerHandler t (tl c)) tags
    /\ (forall m, In (Invoke (tl c) m) (trace w3) ->
                  In (Invoke (tl c) m) (trace w)).
Proof.
  intros Hm.
  destruct (subscribe_run (event_hooks w) tags [] (timeline_made vars w)
              eq_refl (List.Forall_nil _))
    as (fns & w2 & E & Hh & Hs & Ht & Hn & Hc).
  exists (controls_of (next_handle w) (length (event_hooks w))),
         (timeline_made vars w), w2.
  eexists.
  split; [apply timeline_eq|]. split; [reflexivity|]. split; [reflexivity|].
  split; [simpl; rewrite Hm; reflexivity|].
  split; [exact E|].
  unfold mount, bind, gets, modify. rewrite Hc. simpl. rewrite Hm. simpl.
  unfold EventHook.trigger, EventHook.handlers, bind, gets. simpl.
  rewrite Hh, lookup_last. simpl.
  rewrite (handlers_run (next_handle w) fns tags Hs). simpl.
  split; [reflexivity|]. rewrite Ht. simpl.
  rewrite <- app_assoc. simpl. split; [reflexivity|].
  intros m H. apply in_app_or in H as [H|[H|H]].
  - exact H.
  - discriminate H.
  - apply in_map_iff in H as (t & Heq & _). discriminate Heq.
Qed.

(** The failing run of C3: [timeline()] in the initial world, then the
    component mounts.  The hook holds no handler and the trace holds the
    creation of the timeline only. *)
Lemma C3_kill_handler_is_never_attached_witness :
  mounted_cbs init = []
  /\ exists c w1 w2 w3,
       timeline None init = Ok c w1
       /\ tl c = 0
       /\ event_hooks w1 = [[]]
       /\ mounted_cbs w1 = [TriggerHook 0 (tl c)]
       /\ for_each (attach (tlFn c)) [] w1 = Ok tt w2
       /\ mount w2 = Ok tt w3
       /\ trace w3 = [NewTimeline None (tl c)]
       /\ (forall m, In (Invoke (tl c) m) (trace w3) ->
                     In (Invoke (tl c) m) []).
Proof.
  split; [reflexivity|].
  apply (C3_kill_handler_is_never_attached None init []). reflexivity.
Defined.

(** C4, as stated, fails: a second call of [useGsap] registers the plugins
    again. *)
Lemma C4_counterexample :
  exists u1 w1 u2 w2,
    useGsap None init = Ok u1 w1
    /\ trace w1 = [RegisterPlugin [ScrollTrigger]]
    /\ useGsap None w1 = Ok u2 w2
    /\ trace w2 = [RegisterPlugin [ScrollTrigger];
                   RegisterPlugin [ScrollTrigger]]
    /\ trace w2 <> trace w1.
Proof.
  eexists _, _, _, _. split; [reflexivity|]. split; [reflexivity|].
  split; [reflexivity|]. split; [reflexivity|]. discriminate.
Qed.

(** C4, amended: every call of [useGsap] invokes [registerPlugin] once, with
    the caller's plugins, or with [ScrollTrigger] alone when the caller gives
    none, and changes nothing else; the composable keeps no record of an
    earlier registration. *)
Theorem C4_every_call_registers (plugins : option (list Plugin)) (w : World) :
  exists u,
    useGsap plugins w =
      Ok u (with_engine (next_handle w)
              (trace w ++ [RegisterPlugin match plugins with
                                          | Some ps => ps
                                          | None => [ScrollTrigger]
                                          end])
              w).
Proof. eexists. destruct plugins; reflexivity. Qed.

(** C5, as stated, fails: [to] on a target that is an element from the start
    returns to its caller, with [undefined], before any engine factory was
    invoked: the trace is empty. *)
Lemma C5_counterexample :
  exists w1,
    truthy (resolve (Plain (TElement 1)) (refs init)) = true
    /\ to (Plain (TElement 1)) move_right init = Ok None w1
    /\ trace w1 = []
    /\ forall f el h, ~ In (NewTween f el h) (trace w1).
Proof.
  eexists. split; [reflexivity|]. split; [reflexivity|].
  split; [reflexivity|]. intros f el h [].
Qed.

(** C5, amended: creating a binding registers one watcher and one teardown
    callback, invokes nothing of the engine and returns [undefined]; the
    watcher is registered for the post-flush, and when the target resolves to
    a present value at the first flush, that run invokes the engine factory,
    once and within the run, with the resolved value. *)
Theorem C5_first_run_at_post_flush
    (b : Binding) (target : MaybeRefOrGetter) (w : World) (v : TweenTarget) :
  watchers w = [] ->
  resolve target (refs w) = v ->
  truthy v = true ->
  exists w1 w2 e fn,
    create b target w = Ok None w1
    /\ watchers w1 = [e]
    /\ eff_el e = target
    /\ disposers w1 = disposers w ++ [fn]
    /\ trace w1 = trace w
    /\ next_handle w1 = next_handle w
    /\ flush_post w1 = Ok tt w2
    /\ trace w2 = trace w ++ [NewTween (factory_of b) v (next_handle w)].
Proof.
  intros Hw Hv Ht.
  set (e := watcher_of b target (length (cells w))).
  assert (Hc : watchers (created b target w) = [e])
    by (simpl; rewrite Hw; reflexivity).
  assert (Hp : truthy (resolve (eff_el e) (refs (created b target w))) = true)
    by (simpl; rewrite Hv; exact Ht).
  exists (created b target w). eexists. exists e, (KillOpt None).
  split; [apply create_eq|]. split; [exact Hc|]. split; [reflexivity|].
  split; [reflexivity|]. split; [reflexivity|]. split; [reflexivity|].
  rewrite (flush_post_single e _ Hc), (updateFn_present e _ Hp).
  split; [reflexivity|]. simpl. rewrite Hv. reflexivity.
Qed.

(** The amended C5 at work: [from(".box", {opacity: 0})] in the initial
    world. *)
Lemma C5_first_run_at_post_flush_witness :
  watchers init = []
  /\ resolve (Plain (TSelector ".box")) (refs init) = TSelector ".box"
  /\ truthy (TSelector ".box") = true
  /\ exists w1 w2 e fn,
       create (ByFrom transparent) (Plain (TSelector ".box")) init
         = Ok None w1
       /\ watchers w1 = [e]
       /\ eff_el e = Plain (TSelector ".box")
       /\ disposers w1 = [fn]
       /\ trace w1 = []
       /\ next_handle w1 = 0
       /\ flush_post w1 = Ok tt w2
       /\ trace w2 = [NewTween (GsapFrom transparent) (TSelector ".box") 0].
Proof.
  repeat (split; [reflexivity|]).
  apply (C5_first_run_at_post_flush (ByFrom transparent)
           (Plain (TSelector ".box")) init (TSelector ".box")); reflexivity.
Defined.

(** C6: [timeline()] calls the engine's [timeline] at once, whatever the
    world, and gets a handle; the mounted callback is still pending, and any
    sequence of [play], [pause], [restart], [resume], [progress], [seek] and
    [isActive] on the returned object ends without a fault, each operation
    invoking its method on that handle. *)
Theorem C6_controls_before_mount_do_not_fault
    (vars : option Options) (w : World) (ops : list ControlOp) :
  exists c w1 w2,
    timeline vars w = Ok c w1
    /\ trace w1 = trace w ++ [NewTimeline vars (tl c)]
    /\ In (TriggerHook (length (event_hooks w)) (tl c)) (mounted_cbs w1)
    /\ for_each (control c) ops w1 = Ok tt w2
    /\ trace w2 = trace w1 ++ map (fun op => Invoke (tl c) (method_of op)) ops
    /\ mounted_cbs w2 = mounted_cbs w1.
Proof.
  eexists _, _, _. split; [apply timeline_eq|].
  split; [reflexivity|].
  split; [simpl; apply in_or_app; right; left; reflexivity|].
  split; [apply controls_run|].
  split; reflexivity.
Qed.

(** C7: a binding is created in a scope; through any number of ticks (the
    first run and the runs after assignments to refs) its target resolves to
    an absent value, and the engine's trace does not change; at the first
    tick at which the target resolves to a present value [v], the engine
    factory of the binding is invoked with [v], and that is the one call
    made since the binding was created. *)
Theorem C7_late_target_creates_one_tween
    (b : Binding) (target : MaybeRefOrGetter) (w : World)
    (rounds : list (list (nat * TweenTarget)))
    (ws : list (nat * TweenTarget)) (v : TweenTarget) :
  watchers w = [] ->
  absent_at_each target rounds (refs w) = true ->
  resolve target (assign (assign_all (refs w) rounds) ws) = v ->
  truthy v = true ->
  exists w1 w2 w3,
    create b target w = Ok None w1
    /\ for_each tick rounds w1 = Ok tt w2
    /\ trace w2 = trace w
    /\ tick ws w2 = Ok tt w3
    /\ trace w3 = trace w ++ [NewTween (factory_of b) v (next_handle w)].
Proof.
  intros Hw Ha Hv Ht.
  set (e := watcher_of b target (length (cells w))).
  set (w1 := created b target w).
  assert (Hc : watchers w1 = [e]) by (simpl; rewrite Hw; reflexivity).
  set (w2 := with_refs (assign_all (refs w1) rounds) w1).
  assert (Hp : truthy (resolve (eff_el e) (assign (refs w2) ws)) = true)
    by (simpl; rewrite Hv; exact Ht).
  exists w1, w2. eexists.
  split; [apply create_eq|].
  split; [apply (ticks_absent e rounds w1 Hc); exact Ha|].
  split; [reflexivity|].
  split; [apply (tick_present e ws w2 Hc Hp)|].
  simpl. rewrite Hv. reflexivity.
Qed.

(** C7 at work: [to(ref, {x: 100})]; the ref stays unset or [null] for three
    ticks and is then given element 1. *)
Lemma C7_late_target_creates_one_tween_witness :
  watchers init = []
  /\ absent_at_each (RefOf 0) idle_ticks (refs init) = true
  /\ resolve (RefOf 0) (assign (assign_all (refs init) idle_ticks)
                               [(0, TElement 1)]) = TElement 1
  /\ truthy (TElement 1) = true
  /\ exists w1 w2 w3,
       create (ByTo move_right) (RefOf 0) init = Ok None w1
       /\ for_each tick idle_ticks w1 = Ok tt w2
       /\ trace w2 = []
       /\ tick [(0, TElement 1)] w2 = Ok tt w3
       /\ trace w3 = [NewTween (GsapTo move_right) (TElement 1) 0].
Proof.
  repeat (split; [reflexivity|]).
  apply (C7_late_target_creates_one_tween (ByTo move_right) (RefOf 0) init
           idle_ticks [(0, TElement 1)] (TElement 1)); reflexivity.
Defined.

(** C8: a binding made a tween [h1] for the present value [v1]; at a later
    tick its target resolves to a present value [v2].  The engine factory is
    invoked with [v2] and returns another handle, which becomes the value of
    the binding's variable [tween]; this creation is all that the tick adds
    to the trace, so no [kill] and no other method is invoked on [h1]. *)
Theorem C8_new_target_keeps_previous_tween
    (b : Binding) (target : MaybeRefOrGetter) (w : World)
    (ws1 ws2 : list (nat * TweenTarget)) (v1 v2 : TweenTarget) :
  watchers w = [] ->
  resolve target (assign (refs w) ws1) = v1 ->
  truthy v1 = true ->
  resolve target (assign (assign (refs w) ws1) ws2) = v2 ->
  truthy v2 = true ->
  let h1 := next_handle w in
  let h2 := S (next_handle w) in
  exists w1 w2 w3,
    create b target w = Ok None w1
    /\ tick ws1 w1 = Ok tt w2
    /\ cells w2 !! length (cells w) = Some (Some h1)
    /\ tick ws2 w2 = Ok tt w3
    /\ cells w3 !! length (cells w) = Some (Some h2)
    /\ trace w3 = trace w ++ [NewTween (factory_of b) v1 h1;
                               NewTween (factory_of b) v2 h2]
    /\ (forall m, In (Invoke h1 m) (trace w3) -> In (Invoke h1 m) (trace w)).
Proof.
  intros Hw Hv1 Ht1 Hv2 Ht2 h1 h2.
  set (e := watcher_of b target (length (cells w))).
  set (w1 := created b target w).
  assert (Hc : watchers w1 = [e]) by (simpl; rewrite Hw; reflexivity).
  assert (Hp1 : truthy (resolve (eff_el e) (assign (refs w1) ws1)) = true)
    by (simpl; rewrite Hv1; exact Ht1).
  set (w2 := ticked e v1 (with_refs (assign (refs w1) ws1) w1)).
  assert (Hp2 : truthy (resolve (eff_el e) (assign (refs w2) ws2)) = true)
    by (simpl; rewrite Hv2; exact Ht2).
  exists w1, w2. eexists.
  split; [apply create_eq|].
  split; [rewrite (tick_present e ws1 w1 Hc Hp1); simpl; rewrite Hv1;
          reflexivity|].
  split; [simpl; rewrite insert_last; apply lookup_last|].
  split; [apply (tick_present e ws2 w2 Hc Hp2)|].
  split; [simpl; rewrite !insert_last; apply lookup_last|].
  simpl. rewrite Hv2, <- app_assoc. simpl.
  split; [reflexivity|].
  intros m H. apply in_app_or in H as [H|[H|[H|[]]]];
    [exact H | discriminate H | discriminate H].
Qed.

(** C8 at work: [fromTo(ref, ...)]; the ref is given element 1, then
    element 2. *)
Lemma C8_new_target_keeps_previous_tween_witness :
  watchers init = []
  /\ resolve (RefOf 0) (assign (refs init) [(0, TElement 1)]) = TElement 1
  /\ truthy (TElement 1) = true
  /\ resolve (RefOf 0) (assign (assign (refs init) [(0, TElement 1)])
                               [(0, TElement 2)]) = TElement 2
  /\ truthy (TElement 2) = true
  /\ exists w1 w2 w3,
       create (ByFromTo {| opt_from := at_origin; opt_to := move_right |})
              (RefOf 0) init = Ok None w1
       /\ tick [(0, TElement 1)] w1 = Ok tt w2
       /\ cells w2 !! 0 = Some (Some 0)
       /\ tick [(0, TElement 2)] w2 = Ok tt w3
       /\ cells w3 !! 0 = Some (Some 1)
       /\ trace w3 = [NewTween (GsapFromTo at_origin move_right) (TElement 1) 0;
                      NewTween (GsapFromTo at_origin move_right) (TElement 2) 1]
       /\ (forall m, In (Invoke 0 m) (trace w3) -> In (Invoke 0 m) []).
Proof.
  repeat (split; [reflexivity|]).
  apply (C8_new_target_keeps_previous_tween
           (ByFromTo {| opt_from := at_origin; opt_to := move_right |})
           (RefOf 0) init [(0, TElement 1)] [(0, TElement 2)]
           (TElement 1) (TElement 2));
    reflexivity.
Defined.

(** C9: for every preset and every override map, each field of the resolved
    options is the override's field when the overrides define it and the
    preset's field otherwise; without overrides the preset is returned as it
    is.  The preset [{duration: 1, ease: "power1"}] with the override
    [{duration: 2}] resolves to [{duration: 2, ease: "power1"}], and an
    overridden field that holds an object replaces the preset's object whole:
    the merge does not descend into it. *)
Theorem C9_preset_merge_is_shallow :
  (forall (registry : AnimationOptions -> Options) (name : AnimationOptions)
          (overrides : Options) (k : string),
      resolve_preset registry
        {| animationOptions := name; tweenValues := Some overrides |} !! k
      = match overrides !! k with
        | Some v => Some v
        | None => registry name !! k
        end)
  /\ (forall (registry : AnimationOptions -> Options)
             (name : AnimationOptions),
         resolve_preset registry
           {| animationOptions := name; tweenValues := None |}
         = registry name)
  /\ merge_options
       {[ "duration"%string := VNum (1 # 1); "ease"%string := VStr "power1" ]}
       (Some {[ "duration"%string := VNum (2 # 1) ]})
     = {[ "duration"%string := VNum (2 # 1);
          "ease"%string := VStr "power1" ]}
  /\ merge_options
       {[ "scrollTrigger"%string :=
            VObj [("start"%string, VStr "top"); ("end"%string, VStr "bottom")] ]}
       (Some {[ "scrollTrigger"%string :=
                  VObj [("start"%string, VStr "center")] ]})
     = {[ "scrollTrigger"%string := VObj [("start"%string, VStr "center")] ]}.
Proof.
  split; [|split; [|split]].
  - intros registry name overrides k. unfold resolve_preset, merge_options.
    simpl. rewrite lookup_union.
    destruct (overrides !! k), (registry name !! k); reflexivity.
  - reflexivity.
  - vm_compute. reflexivity.
  - vm_compute. reflexivity.
Qed.

(** C10: whatever the component did before ([pre]) and does after ([post])
    the call, [timeline()] leaves the scope's cleanups as they were: it
    registers none.  When the scope ends, the cleanups run without a fault
    and what they add to the trace holds no invocation of [kill], or of any
    other method, on the timeline.  The cleanups of [activationFn] come from
    the tween bindings: each [set], [to], [from] or [fromTo] registers one. *)
Theorem C10_scope_end_leaves_timeline_alone
    (pre post : list Action) (vars : option Options) :
  exists w c w1 w2 w3 added,
    for_each perform pre init = Ok tt w
    /\ timeline vars w = Ok c w1
    /\ disposers w1 = disposers w
    /\ for_each perform post w1 = Ok tt w2
    /\ scope_end w2 = Ok tt w3
    /\ trace w3 = trace w2 ++ added
    /\ (forall m, ~ In (Invoke (tl c) m) added)
    /\ (forall b target w', exists w'',
           create b target w' = Ok None w''
           /\ disposers w'' = disposers w' ++ [KillOpt None]).
Proof.
  destruct (program_inert pre init) as (w & E & Hi); [constructor|].
  assert (Hi1 : teardown_inert (timeline_made vars w)) by exact Hi.
  destruct (program_inert post _ Hi1) as (w2 & E2 & Hi2).
  destruct (scope_end_inert w2 Hi2) as (w3 & E3 & Ht).
  exists w, (controls_of (next_handle w) (length (event_hooks w))),
         (timeline_made vars w), w2, w3, [].
  split; [exact E|]. split; [apply timeline_eq|]. split; [reflexivity|].
  split; [exact E2|]. split; [exact E3|].
  split; [rewrite app_nil_r; exact Ht|].
  split; [intros m []|].
  intros b target w'. exists (created b target w').
  split; [apply create_eq | reflexivity].
Qed.

(** * Further properties of the code *)

(** ** Runs of several watchers *)

Lemma watchers_run (fns : list Effect) :
  forall w, exists w',
    for_each updateFn fns w = Ok tt w'
    /\ trace w' = trace w ++ run_calls fns (refs w) (next_handle w)
    /\ next_handle w'
       = next_handle w + length (run_calls fns (refs w) (next_handle w))
    /\ refs w' = refs w
    /\ length (cells w') = length (cells w)
    /\ watchers w' = watchers w
    /\ disposers w' = disposers w
    /\ mounted_cbs w' = mounted_cbs w
    /\ event_hooks w' = event_hooks w.
Proof.
  induction fns as [|e fns IH]; intros w; simpl.
  - exists w. rewrite app_nil_r, Nat.add_0_r. repeat split; reflexivity.
  - unfold bind.
    destruct (truthy (resolve (eff_el e) (refs w))) eqn:Ht.
    + rewrite (updateFn_present e w Ht).
      destruct (IH (ticked e (resolve (eff_el e) (refs w)) w))
        as (w' & E & Htr & Hn & Hr & Hl & Hw & Hd & Hm & Hh).
      exists w'. simpl in *. rewrite E, Htr, Hn, Hr, Hl, Hw, Hd, Hm, Hh.
      rewrite <- app_assoc, length_insert. simpl.
      repeat split; try reflexivity. lia.
    + rewrite (updateFn_absent e w Ht). apply IH.
Qed.

Lemma run_calls_length (fns : list Effect) (store : gmap nat TweenTarget) :
  forall h,
    length (run_calls fns store h)
    = length (filter (fun e => truthy (resolve (eff_el e) store) = true) fns).
Proof.
  induction fns as [|e fns IH]; intros h; simpl.
  - reflexivity.
  - rewrite filter_cons.
    destruct (truthy (resolve (eff_el e) store)) eqn:Ht.
    + rewrite decide_True by reflexivity. simpl. f_equal. apply IH.
    + rewrite decide_False by discriminate. apply IH.
Qed.

(** X1: when the scheduler runs some watchers in a flush, whatever the
    world, the engine is invoked once for each of them whose target is
    present, in the order of the runs and with the resolved target, and for
    no other; the run takes that many handles from the engine and leaves the
    refs and every registration (watchers, cleanups, mounted callbacks, event
    hooks) and the number of variables as they were. *)
Theorem X1_flush_calls_engine_per_present_watcher
    (fns : list Effect) (w : World) :
  exists w',
    for_each updateFn fns w = Ok tt w'
    /\ trace w' = trace w ++ run_calls fns (refs w) (next_handle w)
    /\ length (run_calls fns (refs w) (next_handle w))
       = length (filter (fun e => truthy (resolve (eff_el e) (refs w)) = true)
                        fns)
    /\ next_handle w'
       = next_handle w + length (run_calls fns (refs w) (next_handle w))
    /\ refs w' = refs w
    /\ length (cells w') = length (cells w)
    /\ watchers w' = watchers w
    /\ disposers w' = disposers w
    /\ mounted_cbs w' = mounted_cbs w
    /\ event_hooks w' = event_hooks w.
Proof.
  destruct (watchers_run fns w)
    as (w' & E & Htr & Hn & Hr & Hl & Hw & Hd & Hm & Hh).
  exists w'. split; [exact E|]. split; [exact Htr|].
  split; [apply run_calls_length|]. repeat split; assumption.
Qed.

(** ** The life of one binding *)

Lemma life_run (e : Effect) (rounds : list (list (nat * TweenTarget))) :
  forall (w : World) (held : option Handle),
    watchers w = [e] ->
    cells w !! cell_of e = Some held ->
    exists w',
      for_each tick rounds w = Ok tt w'
      /\ trace w' = trace w
           ++ life_calls (uf_factory (eff_updateFactory e)) (eff_el e)
                rounds (refs w) (next_handle w)
      /\ cells w' !! cell_of e
         = Some (life_tween (eff_el e) rounds (refs w) (next_handle w) held)
      /\ watchers w' = [e]
      /\ disposers w' = disposers w.
Proof.
  induction rounds as [|ws rounds IH]; intros w held Hw Hc; simpl.
  - exists w. rewrite app_nil_r. repeat split; assumption.
  - unfold bind.
    destruct (truthy (resolve (eff_el e) (assign (refs w) ws))) eqn:Ht.
    + rewrite (tick_present e ws w Hw Ht).
      edestruct (IH (ticked e (resolve (eff_el e) (assign (refs w) ws))
                       (with_refs (assign (refs w) ws) w))
                    (Some (next_handle w)))
        as (w' & E & Htr & Hce & Hwa & Hd).
      * exact Hw.
      * simpl. apply list_lookup_insert_eq.
        apply lookup_lt_Some in Hc. exact Hc.
      * exists w'. simpl in *. rewrite E, Htr, Hce, Hwa, Hd.
        rewrite <- app_assoc. repeat split; reflexivity.
    + rewrite (tick_absent e ws w Hw Ht).
      edestruct (IH (with_refs (assign (refs w) ws) w) held)
        as (w' & E & Htr & Hce & Hwa & Hd); [exact Hw | exact Hc |].
      exists w'. simpl in *. rewrite E, Htr, Hce, Hwa, Hd.
      repeat split; reflexivity.
Qed.

(** X2: a binding ([set], [to], [from] or [fromTo]) is alone in its scope
    and lives through ticks that are runs of its watcher: the first run,
    then ticks at each of which the target resolves to another value than at
    the tick before.  The engine is invoked once at each tick at
    which the target is present and at no other, with the value resolved at
    that tick and a new handle each time, and the trace gains nothing else;
    the binding's variable [tween] ends with the handle of the last such tick
    ([undefined] when there was none), and the one cleanup of the creation
    stays the scope's only one. *)
Theorem X2_binding_makes_one_tween_per_present_tick
    (b : Binding) (target : MaybeRefOrGetter) (w : World)
    (rounds : list (list (nat * TweenTarget))) :
  watchers w = [] ->
  disposers w = [] ->
  changes_at_each target rounds (refs w) None = true ->
  exists w1 w2,
    create b target w = Ok None w1
    /\ for_each tick rounds w1 = Ok tt w2
    /\ trace w2 = trace w
         ++ life_calls (factory_of b) target rounds (refs w) (next_handle w)
    /\ cells w2 !! length (cells w)
       = Some (life_tween target rounds (refs w) (next_handle w) None)
    /\ disposers w2 = [KillOpt None].
Proof.
  intros Hw Hd _.
  set (e := watcher_of b target (length (cells w))).
  destruct (life_run e rounds (created b target w) None)
    as (w2 & E & Htr & Hc & _ & Hd2).
  - simpl. rewrite Hw. reflexivity.
  - apply lookup_last.
  - exists (created b target w), w2.
    split; [apply create_eq|]. split; [exact E|].
    split; [exact Htr|]. split; [exact Hc|].
    rewrite Hd2. simpl. rewrite Hd. reflexivity.
Qed.

(** X2 at work: [to(ref, {x: 100})]; the ref is unset at the first run, then
    holds element 1, then [null], then element 2. *)
Lemma X2_binding_makes_one_tween_per_present_tick_witness :
  watchers init = []
  /\ disposers init = []
  /\ changes_at_each (RefOf 0)
       [[]; [(0, TElement 1)]; [(0, TNull)]; [(0, TElement 2)]]
       (refs init) None = true
  /\ exists w1 w2,
       create (ByTo move_right) (RefOf 0) init = Ok None w1
       /\ for_each tick
            [[]; [(0, TElement 1)]; [(0, TNull)]; [(0, TElement 2)]] w1
          = Ok tt w2
       /\ trace w2 = [NewTween (GsapTo move_right) (TElement 1) 0;
                      NewTween (GsapTo move_right) (TElement 2) 1]
       /\ cells w2 !! 0 = Some (Some 1)
       /\ disposers w2 = [KillOpt None].
Proof.
  split; [reflexivity|]. split; [reflexivity|]. split; [reflexivity|].
  apply (X2_binding_makes_one_tween_per_present_tick (ByTo move_right)
           (RefOf 0) init
           [[]; [(0, TElement 1)]; [(0, TNull)]; [(0, TElement 2)]]);
    reflexivity.
Defined.

(** ** Invariants of the bindings' variables *)

Lemma own_variables_frame (w w' : World) :
  watchers w' = watchers w ->
  length (cells w') = length (cells w) ->
  own_variables w -> own_variables w'.
Proof. unfold own_variables. intros -> ->. exact id. Qed.

Lemma run_handler_variables (arg : Handle) (p : Fn) (w : World) :
  exists w', run_handler p.2 arg w = Ok tt w'
             /\ (watchers w', cells w') = (watchers w, cells w).
Proof. destruct p as [i [|tag]]; eexists; split; reflexivity. Qed.

Lemma run_mounted_variables (cb : MountedCb) (w : World) :
  exists w', run_mounted cb w = Ok tt w'
             /\ (watchers w', cells w') = (watchers w, cells w).
Proof.
  destruct cb as [hook h].
  unfold run_mounted, EventHook.trigger, EventHook.handlers, bind, gets.
  apply (for_each_frame (fun w => (watchers w, cells w))
           (fun p => run_handler p.2 h)).
  apply run_handler_variables.
Qed.

Lemma perform_own_variables (a : Action) (w : World) :
  own_variables w ->
  exists w', perform a w = Ok tt w' /\ own_variables w'.
Proof.
  intros H. destruct a as [p|vars|b t|hook tag|h m|r v| |];
    unfold perform, bind.
  - eexists. split; [reflexivity | exact H].
  - rewrite timeline_eq. eexists. split; [reflexivity | exact H].
  - rewrite create_eq. eexists. split; [reflexivity|].
    destruct H as [Hn Hl]. unfold own_variables. simpl.
    rewrite map_app, length_app. simpl. split.
    + apply NoDup_app. split; [exact Hn|]. split; [|apply NoDup_singleton].
      intros c Hc Hin. apply list_elem_of_singleton in Hin. subst c.
      apply list_elem_of_In, in_map_iff in Hc as (e & He & Hin).
      rewrite List.Forall_forall in Hl. specialize (Hl e Hin).
      unfold cell_of in *. simpl in He. lia.
    + apply Forall_app. split.
      * eapply Forall_impl; [exact Hl|]. simpl. intros e He. lia.
      * repeat constructor. unfold cell_of. simpl. lia.
  - eexists. split; [reflexivity | exact H].
  - eexists. split; [reflexivity | exact H].
  - eexists. split; [reflexivity | exact H].
  - unfold flush_post, bind, gets.
    destruct (watchers_run (watchers w) w)
      as (w' & E & _ & _ & _ & Hl & Hw & _).
    exists w'. split; [exact E|].
    apply (own_variables_frame w w' Hw Hl H).
  - unfold mount, bind, gets, modify.
    destruct (for_each_frame (fun w => (watchers w, cells w)) run_mounted
                run_mounted_variables (mounted_cbs w)
                (with_mounted_cbs [] w)) as (w' & E & Hf).
    exists w'. split; [exact E|].
    injection Hf as Hw Hc. simpl in Hw, Hc.
    apply (own_variables_frame w w' Hw); [rewrite Hc; reflexivity | exact H].
Qed.

(** X3: whatever a component does with the composable, the watchers of its
    scope assign variables of their own: two watchers never share their
    [tween], so a run of one binding's watcher, whenever it ends, leaves the
    variable of every other binding as it was. *)
Theorem X3_bindings_keep_separate_variables (acts : list Action) :
  exists w,
    for_each perform acts init = Ok tt w
    /\ forall i j ei ej,
         watchers w !! i = Some ei ->
         watchers w !! j = Some ej ->
         i <> j ->
         cell_of ei <> cell_of ej
         /\ forall w',
              updateFn ei w = Ok tt w' ->
              cells w' !! cell_of ej = cells w !! cell_of ej.
Proof.
  destruct (for_each_inv own_variables perform perform_own_variables
              acts init) as (w & E & Hn & _).
  { split; constructor. }
  exists w. split; [exact E|].
  intros i j ei ej Hi Hj Hij.
  assert (Hne : cell_of ei <> cell_of ej).
  { intros Heq. apply Hij.
    apply (NoDup_lookup (map cell_of (watchers w)) i j (cell_of ei) Hn).
    - rewrite list_lookup_fmap, Hi. reflexivity.
    - rewrite list_lookup_fmap, Hj, Heq. reflexivity. }
  split; [exact Hne|].
  intros w' Hrun.
  destruct (truthy (resolve (eff_el ei) (refs w))) eqn:Ht.
  - rewrite (updateFn_present ei w Ht) in Hrun. injection Hrun as <-.
    simpl. apply list_lookup_insert_ne. exact Hne.
  - rewrite (updateFn_absent ei w Ht) in Hrun. injection Hrun as <-.
    reflexivity.
Qed.

Lemma made_tween_mono (t t' : list Call) (held : option Handle) :
  made_tween t held -> made_tween (t ++ t') held.
Proof.
  destruct held as [h|]; simpl; [|exact id].
  intros (f & el & Hin & Ht). exists f, el.
  split; [apply in_or_app; left; exact Hin | exact Ht].
Qed.

Lemma variables_hold_tweens_mono (w w' : World) (t' : list Call) :
  trace w' = trace w ++ t' ->
  cells w' = cells w ->
  variables_hold_tweens w -> variables_hold_tweens w'.
Proof.
  unfold variables_hold_tweens. intros -> -> H.
  eapply Forall_impl; [exact H|]. intros held. apply made_tween_mono.
Qed.

Lemma updateFn_hold_tweens (e : Effect) (w : World) :
  variables_hold_tweens w ->
  exists w', updateFn e w = Ok tt w' /\ variables_hold_tweens w'.
Proof.
  intros H. destruct (truthy (resolve (eff_el e) (refs w))) eqn:Ht.
  - rewrite (updateFn_present e w Ht). eexists. split; [reflexivity|].
    unfold variables_hold_tweens in *. simpl. apply Forall_insert.
    + eapply Forall_impl; [exact H|]. intros held. apply made_tween_mono.
    + simpl. eexists _, _. split; [|exact Ht].
      apply in_or_app. right. left. reflexivity.
  - rewrite (updateFn_absent e w Ht). eexists. split; [reflexivity | exact H].
Qed.

Lemma run_handler_hold_tweens (arg : Handle) (p : Fn) (w : World) :
  variables_hold_tweens w ->
  exists w', run_handler p.2 arg w = Ok tt w' /\ variables_hold_tweens w'.
Proof.
  intros H. destruct p as [i [|tag]]; eexists; (split; [reflexivity|]);
    eapply variables_hold_tweens_mono; try exact H; reflexivity.
Qed.

Lemma run_mounted_hold_tweens (cb : MountedCb) (w : World) :
  variables_hold_tweens w ->
  exists w', run_mounted cb w = Ok tt w' /\ variables_hold_tweens w'.
Proof.
  destruct cb as [hook h].
  unfold run_mounted, EventHook.trigger, EventHook.handlers, bind, gets.
  apply (for_each_inv variables_hold_tweens (fun p => run_handler p.2 h)).
  apply run_handler_hold_tweens.
Qed.

Lemma perform_hold_tweens (a : Action) (w : World) :
  variables_hold_tweens w ->
  exists w', perform a w = Ok tt w' /\ variables_hold_tweens w'.
Proof.
  intros H. destruct a as [p|vars|b t|hook tag|h m|r v| |];
    unfold perform, bind.
  - eexists. split; [reflexivity|].
    eapply variables_hold_tweens_mono; try exact H; reflexivity.
  - rewrite timeline_eq. eexists. split; [reflexivity|].
    eapply variables_hold_tweens_mono; try exact H; reflexivity.
  - rewrite create_eq. eexists. split; [reflexivity|].
    unfold variables_hold_tweens in *. simpl.
    apply Forall_app. split; [exact H | repeat constructor].
  - eexists. split; [reflexivity | exact H].
  - eexists. split; [reflexivity|].
    eapply variables_hold_tweens_mono; try exact H; reflexivity.
  - eexists. split; [reflexivity | exact H].
  - unfold flush_post, bind, gets.
    apply (for_each_inv variables_hold_tweens updateFn updateFn_hold_tweens).
    exact H.
  - unfold mount, bind, gets, modify.
    apply (for_each_inv variables_hold_tweens run_mounted
             run_mounted_hold_tweens).
    exact H.
Qed.

Lemma omap_snoc_none (t : list Call) (c : Call) :
  created_by c = None -> omap created_by (t ++ [c]) = omap created_by t.
Proof. intros H. rewrite omap_app. simpl. rewrite H. apply app_nil_r. Qed.

Lemma handles_made_once_same (w w' : World) (c : Call) :
  trace w' = trace w ++ [c] ->
  created_by c = None ->
  next_handle w' = next_handle w ->
  handles_made_once w -> handles_made_once w'.
Proof.
  unfold handles_made_once. intros -> Hc ->. rewrite omap_snoc_none by exact Hc.
  exact id.
Qed.

Lemma handles_made_once_new (w w' : World) (c : Call) :
  trace w' = trace w ++ [c] ->
  created_by c = Some (next_handle w) ->
  next_handle w' = S (next_handle w) ->
  handles_made_once w -> handles_made_once w'.
Proof.
  unfold handles_made_once. intros -> Hc -> H.
  rewrite omap_app, H.
  replace (omap created_by [c]) with [next_handle w]
    by (simpl; rewrite Hc; reflexivity).
  rewrite seq_S. reflexivity.
Qed.

Lemma updateFn_handles (e : Effect) (w : World) :
  handles_made_once w ->
  exists w', updateFn e w = Ok tt w' /\ handles_made_once w'.
Proof.
  intros H. destruct (truthy (resolve (eff_el e) (refs w))) eqn:Ht.
  - rewrite (updateFn_present e w Ht). eexists. split; [reflexivity|].
    eapply handles_made_once_new; try exact H; reflexivity.
  - rewrite (updateFn_absent e w Ht). eexists. split; [reflexivity | exact H].
Qed.

Lemma run_handler_handles (arg : Handle) (p : Fn) (w : World) :
  handles_made_once w ->
  exists w', run_handler p.2 arg w = Ok tt w' /\ handles_made_once w'.
Proof.
  intros H. destruct p as [i [|tag]]; eexists; (split; [reflexivity|]);
    eapply handles_made_once_same; try exact H; reflexivity.
Qed.

Lemma run_mounted_handles (cb : MountedCb) (w : World) :
  handles_made_once w ->
  exists w', run_mounted cb w = Ok tt w' /\ handles_made_once w'.
Proof.
  destruct cb as [hook h].
  unfold run_mounted, EventHook.trigger, EventHook.handlers, bind, gets.
  apply (for_each_inv handles_made_once (fun p => run_handler p.2 h)).
  apply run_handler_handles.
Qed.

Lemma perform_handles (a : Action) (w : World) :
  handles_made_once w ->
  exists w', perform a w = Ok tt w' /\ handles_made_once w'.
Proof.
  intros H. destruct a as [p|vars|b t|hook tag|h m|r v| |];
    unfold perform, bind.
  - eexists. split; [reflexivity|].
    eapply handles_made_once_same; try exact H; reflexivity.
  - rewrite timeline_eq. eexists. split; [reflexivity|].
    eapply handles_made_once_new; try exact H; reflexivity.
  - rewrite create_eq. eexists. split; [reflexivity | exact H].
  - eexists. split; [reflexivity | exact H].
  - eexists. split; [reflexivity|].
    eapply handles_made_once_same; try exact H; reflexivity.
  - eexists. split; [reflexivity | exact H].
  - unfold flush_post, bind, gets.
    apply (for_each_inv handles_made_once updateFn updateFn_handles).
    exact H.
  - unfold mount, bind, gets, modify.
    apply (for_each_inv handles_made_once run_mounted run_mounted_handles).
    exact H.
Qed.

(** Two creations of one handle in a trace whose handles were made once are
    the same call. *)
Lemma creation_unique (t : list Call) :
  NoDup (omap created_by t) ->
  forall c1 c2 h,
    In c1 t -> In c2 t ->
    created_by c1 = Some h -> created_by c2 = Some h -> c1 = c2.
Proof.
  induction t as [|c t IH]; intros Hn c1 c2 h H1 H2 E1 E2.
  - destruct H1.
  - assert (Hin : forall c', In c' t -> created_by c' = Some h ->
                             h ∈ omap created_by t).
    { intros c' Hc' E'. apply list_elem_of_omap. exists c'.
      split; [apply list_elem_of_In; exact Hc' | exact E']. }
    simpl in Hn. destruct H1 as [<-|H1], H2 as [<-|H2].
    + reflexivity.
    + rewrite E1 in Hn. apply NoDup_cons in Hn as [Hn _].
      destruct (Hn (Hin c2 H2 E2)).
    + rewrite E2 in Hn. apply NoDup_cons in Hn as [Hn _].
      destruct (Hn (Hin c1 H1 E1)).
    + destruct (created_by c); [apply NoDup_cons in Hn as [_ Hn]|];
        exact (IH Hn c1 c2 h H1 H2 E1 E2).
Qed.

Lemma perform_tweens_and_handles (a : Action) (w : World) :
  variables_hold_tweens w /\ handles_made_once w ->
  exists w', perform a w = Ok tt w'
             /\ (variables_hold_tweens w' /\ handles_made_once w').
Proof.
  intros [Hv Hh].
  destruct (perform_hold_tweens a w Hv) as (w1 & E1 & H1).
  destruct (perform_handles a w Hh) as (w2 & E2 & H2).
  rewrite E1 in E2. injection E2 as <-.
  exists w1. split; [exact E1 | split; assumption].
Qed.

(** X4: whatever a component does with the composable, the variable [tween]
    of a binding holds [undefined] or a handle that the engine returned from
    one of the four tween factories, called for a present target; every
    creation of that handle in the trace is this tween, so the variable
    never holds the handle of a timeline. *)
Theorem X4_variables_hold_tweens_of_present_targets (acts : list Action) :
  exists w,
    for_each perform acts init = Ok tt w
    /\ forall c h,
         cells w !! c = Some (Some h) ->
         exists f el,
           In (NewTween f el h) (trace w)
           /\ truthy el = true
           /\ (forall vars, ~ In (NewTimeline vars h) (trace w))
           /\ (forall f' el', In (NewTween f' el' h) (trace w) ->
                               NewTween f' el' h = NewTween f el h).
Proof.
  destruct (for_each_inv
              (fun w => variables_hold_tweens w /\ handles_made_once w)
              perform perform_tweens_and_handles acts init)
    as (w & E & H & Hh).
  { split; [constructor | reflexivity]. }
  exists w. split; [exact E|].
  intros c h Hc. unfold variables_hold_tweens in H.
  rewrite List.Forall_forall in H.
  destruct (H (Some h)) as (f & el & Hin & Ht).
  { apply list_elem_of_In. eapply list_elem_of_lookup_2. exact Hc. }
  assert (Hn : NoDup (omap created_by (trace w))).
  { rewrite Hh. apply NoDup_ListNoDup, List.seq_NoDup. }
  exists f, el. split; [exact Hin|]. split; [exact Ht|]. split.
  - intros vars Hv.
    assert (Heq := creation_unique (trace w) Hn _ _ h Hv Hin eq_refl eq_refl).
    discriminate Heq.
  - intros f' el' Hin'.
    exact (creation_unique (trace w) Hn _ _ h Hin' Hin eq_refl eq_refl).
Qed.

(** ** Scope end, in every program *)

Lemma cleanups_frame (fns : list Cleanup) :
  Forall inert fns ->
  forall w, exists w',
    for_each run_cleanup fns w = Ok tt w'
    /\ trace w' = trace w
    /\ next_handle w' = next_handle w
    /\ cells w' = cells w.
Proof.
  induction 1 as [|fn fns Hfn _ IH]; intros w; simpl.
  - exists w. repeat split; reflexivity.
  - unfold bind. destruct fn as [[h|]|hook f]; simpl in *.
    + destruct Hfn.
    + apply IH.
    + unfold EventHook.off, EventHook.handlers, EventHook.set_handlers, bind,
        gets, modify. simpl.
      match goal with |- context [for_each run_cleanup fns ?w1] =>
        destruct (IH w1) as (w' & E & Ht & Hn & Hc) end.
      exists w'. repeat split; assumption.
Qed.

(** X5: whatever a component did with the composable, the end of its scope
    runs the registered cleanups without a fault and invokes no method of
    the engine: no tween and no timeline made in the scope is killed by the
    composable, and the bindings' variables keep the handles they held. *)
Theorem X5_scope_end_kills_nothing (acts : list Action) :
  exists w w',
    for_each perform acts init = Ok tt w
    /\ scope_end w = Ok tt w'
    /\ trace w' = trace w
    /\ next_handle w' = next_handle w
    /\ cells w' = cells w.
Proof.
  destruct (program_inert acts init) as (w & E & Hi); [constructor|].
  unfold scope_end, bind, gets, modify.
  destruct (cleanups_frame (disposers w) Hi
              (with_watchers [] (with_disposers [] w)))
    as (w' & E' & Ht & Hn & Hc).
  exists w, w'. repeat split; assumption.
Qed.

(** ** Handlers attached after the mount *)

Lemma for_each_inv_on {A} (R : A -> Prop) (P : World -> Prop)
    (f : A -> M unit) :
  (forall x w, R x -> P w -> exists w', f x w = Ok tt w' /\ P w') ->
  forall l, Forall R l ->
  forall w, P w -> exists w', for_each f l w = Ok tt w' /\ P w'.
Proof.
  intros Hf l Hl. induction Hl as [|x l Hx _ IH]; intros w Hw; simpl.
  - exists w. split; [reflexivity | exact Hw].
  - destruct (Hf x w Hx Hw) as (w1 & E1 & H1).
    destruct (IH w1 H1) as (w2 & E2 & H2).
    exists w2. unfold bind. rewrite E1. split; assumption.
Qed.

Lemma no_handler_ran_refl (h : Handle) (w0 : World) :
  no_handler_ran_since h w0 w0.
Proof. exists []. rewrite app_nil_r. split; [reflexivity | constructor]. Qed.

Lemma no_handler_ran_step (h : Handle) (w0 w w' : World) (c : Call) :
  trace w' = trace w ++ [c] ->
  spares_handlers h c ->
  no_handler_ran_since h w0 w -> no_handler_ran_since h w0 w'.
Proof.
  intros Ht Hc (added & Ha & Hf). exists (added ++ [c]).
  rewrite Ht, Ha, <- app_assoc. split; [reflexivity|].
  apply Forall_app. split; [exact Hf | repeat constructor; exact Hc].
Qed.

Lemma no_handler_ran_same (h : Handle) (w0 w w' : World) :
  trace w' = trace w ->
  no_handler_ran_since h w0 w -> no_handler_ran_since h w0 w'.
Proof. unfold no_handler_ran_since. intros ->. exact id. Qed.

Lemma updateFn_late (h : Handle) (w0 : World) (e : Effect) (w : World) :
  late h w0 w -> exists w', updateFn e w = Ok tt w' /\ late h w0 w'.
Proof.
  intros [[Hn Hm] Hr].
  destruct (truthy (resolve (eff_el e) (refs w))) eqn:Ht.
  - rewrite (updateFn_present e w Ht). eexists. split; [reflexivity|].
    split; [split; [simpl; lia | exact Hm]|].
    eapply no_handler_ran_step; [reflexivity | exact I | exact Hr].
  - rewrite (updateFn_absent e w Ht). eexists.
    split; [reflexivity | exact (conj (conj Hn Hm) Hr)].
Qed.

Lemma run_handler_late (h : Handle) (w0 : World) (arg : Handle) (p : Fn)
    (w : World) :
  arg <> h ->
  late h w0 w ->
  exists w', run_handler p.2 arg w = Ok tt w' /\ late h w0 w'.
Proof.
  intros Ha [[Hn Hm] Hr].
  destruct p as [i [|tag]]; eexists; (split; [reflexivity|]);
    (split; [split; [exact Hn | exact Hm]|]);
    (eapply no_handler_ran_step; [reflexivity | | exact Hr]).
  - exact I.
  - exact Ha.
Qed.

Lemma run_mounted_late (h : Handle) (w0 : World) (cb : MountedCb)
    (w : World) :
  mounted_cb_spares h cb ->
  late h w0 w ->
  exists w', run_mounted cb w = Ok tt w' /\ late h w0 w'.
Proof.
  destruct cb as [hook h']. simpl. intros Hne.
  unfold run_mounted, EventHook.trigger, EventHook.handlers, bind, gets.
  apply (for_each_inv (late h w0) (fun p => run_handler p.2 h')).
  intros p w1. apply run_handler_late. exact Hne.
Qed.

Lemma perform_late (h : Handle) (w0 : World) (a : Action) (w : World) :
  late h w0 w -> exists w', perform a w = Ok tt w' /\ late h w0 w'.
Proof.
  intros H. destruct a as [p|vars|b t|hook tag|h' m|r v| |];
    unfold perform, bind.
  - destruct H as [[Hn Hm] Hr]. eexists. split; [reflexivity|].
    split; [split; [exact Hn | exact Hm]|].
    eapply no_handler_ran_step; [reflexivity | exact I | exact Hr].
  - destruct H as [[Hn Hm] Hr]. rewrite timeline_eq.
    eexists. split; [reflexivity|]. split; [split|].
    + simpl. lia.
    + simpl. apply Forall_app. split; [exact Hm|].
      repeat constructor. simpl. lia.
    + eapply no_handler_ran_step; [reflexivity | exact I | exact Hr].
  - destruct H as [[Hn Hm] Hr]. rewrite create_eq.
    eexists. split; [reflexivity|].
    split; [split; [exact Hn | exact Hm]|].
    eapply no_handler_ran_same; [reflexivity | exact Hr].
  - destruct H as [[Hn Hm] Hr]. eexists. split; [reflexivity|].
    split; [split; [exact Hn | exact Hm]|].
    eapply no_handler_ran_same; [reflexivity | exact Hr].
  - destruct H as [[Hn Hm] Hr]. eexists. split; [reflexivity|].
    split; [split; [exact Hn | exact Hm]|].
    eapply no_handler_ran_step; [reflexivity | exact I | exact Hr].
  - destruct H as [[Hn Hm] Hr]. eexists. split; [reflexivity|].
    split; [split; [exact Hn | exact Hm]|].
    eapply no_handler_ran_same; [reflexivity | exact Hr].
  - unfold flush_post, bind, gets.
    apply (for_each_inv (late h w0) updateFn (updateFn_late h w0)).
    exact H.
  - destruct H as [[Hn Hm] Hr]. unfold mount, bind, gets, modify.
    apply (for_each_inv_on (mounted_cb_spares h) (late h w0) run_mounted
             (run_mounted_late h w0) (mounted_cbs w) Hm).
    split; [split; [exact Hn | constructor]|].
    eapply no_handler_ran_same; [reflexivity | exact Hr].
Qed.

(** X6: the mount event of a timeline is triggered by the mounted callback
    and by nothing else.  When the component has mounted, handlers that the
    caller attaches through [tlFn] are put in the hook's set, and whatever
    the component does afterwards (other timelines and their mounts
    included), none of them is ever called with this timeline. *)
Theorem X6_handlers_attached_after_mount_never_run
    (vars : option Options) (w : World) (tags : list nat)
    (post : list Action) :
  mounted_cbs w = [] ->
  exists c w1 w2 w3 w4 fns added,
    timeline vars w = Ok c w1
    /\ mount w1 = Ok tt w2
    /\ for_each (attach (tlFn c)) tags w2 = Ok tt w3
    /\ event_hooks w3 !! length (event_hooks w) = Some fns
    /\ map snd fns = map Caller tags
    /\ trace w3 = trace w ++ [NewTimeline vars (tl c)]
    /\ for_each perform post w3 = Ok tt w4
    /\ trace w4 = trace w3 ++ added
    /\ forall tag, ~ In (CallerHandler tag (tl c)) added.
Proof.
  intros Hm.
  set (w2 := with_mounted_cbs [] (timeline_made vars w)).
  assert (E2 : mount (timeline_made vars w) = Ok tt w2).
  { unfold mount, bind, gets, modify. simpl. rewrite Hm. simpl.
    unfold EventHook.trigger, EventHook.handlers, bind, gets. simpl.
    rewrite lookup_last. reflexivity. }
  destruct (subscribe_run (event_hooks w) tags [] w2 eq_refl
              (List.Forall_nil _))
    as (fns & w3 & E3 & Hh & Hs & Ht & Hn & Hc).
  assert (Hl : late (next_handle w) w3 w3).
  { split; [split|].
    - rewrite Hn. simpl. lia.
    - rewrite Hc. constructor.
    - apply no_handler_ran_refl. }
  destruct (for_each_inv (late (next_handle w) w3) perform
              (perform_late (next_handle w) w3) post w3 Hl)
    as (w4 & E4 & _ & added & Ha & Hf).
  exists (controls_of (next_handle w) (length (event_hooks w))),
         (timeline_made vars w), w2, w3, w4, fns, added.
  split; [apply timeline_eq|]. split; [exact E2|]. split; [exact E3|].
  split; [rewrite Hh; apply lookup_last|]. split; [exact Hs|].
  split; [rewrite Ht; reflexivity|]. split; [exact E4|]. split; [exact Ha|].
  intros tag Hin. rewrite List.Forall_forall in Hf.
  apply (Hf _ Hin). reflexivity.
Qed.

(** X6 at work: a timeline in the initial world; the component mounts, the
    caller attaches handlers 7 and 8, then creates a second timeline with a
    handler 7 of its own and mounts again. *)
Lemma X6_handlers_attached_after_mount_never_run_witness :
  mounted_cbs init = []
  /\ exists c w1 w2 w3 w4 fns added,
       timeline None init = Ok c w1
       /\ mount w1 = Ok tt w2
       /\ for_each (attach (tlFn c)) [7; 8] w2 = Ok tt w3
       /\ event_hooks w3 !! 0 = Some fns
       /\ map snd fns = [Caller 7; Caller 8]
       /\ trace w3 = [NewTimeline None (tl c)]
       /\ for_each perform [CallTimeline None; CallOn 1 7; Mount; Mount] w3
          = Ok tt w4
       /\ trace w4 = trace w3 ++ added
       /\ forall tag, ~ In (CallerHandler tag (tl c)) added.
Proof.
  split; [reflexivity|].
  apply (X6_handlers_attached_after_mount_never_run None init [7; 8]
           [CallTimeline None; CallOn 1 7; Mount; Mount]).
  reflexivity.
Defined.

(** ** Several timelines in one component *)

Lemma attach_at_eq (pre post : list (list Fn)) (fns : list Fn) (tag : nat)
    (w : World) :
  event_hooks w = pre ++ fns :: post ->
  Forall (fun p => p.1 < next_fn w) fns ->
  attach (EventHook.on (length pre)) tag w =
    Ok tt (mkWorld (next_handle w) (trace w) (refs w) (cells w) (watchers w)
             (disposers w ++ [HookOff (length pre) (next_fn w, Caller tag)])
             (mounted_cbs w)
             (pre ++ (fns ++ [(next_fn w, Caller tag)]) :: post)
             (S (next_fn w))).
Proof.
  intros Hw Hf.
  unfold attach, EventHook.on, new_fn, EventHook.handlers,
    EventHook.set_handlers, tryOnScopeDispose, bind, gets, modify. simpl.
  rewrite Hw, (list_lookup_middle pre post fns (length pre) eq_refl). simpl.
  rewrite (has_fresh fns (next_fn w, Caller tag) Hf).
  rewrite insert_app_r_alt by lia. rewrite Nat.sub_diag. reflexivity.
Qed.

Lemma subscribe_at_run (pre post : list (list Fn)) (tags : list nat) :
  forall (fns : list Fn) (w : World),
    event_hooks w = pre ++ fns :: post ->
    Forall (fun p => p.1 < next_fn w) fns ->
    exists fns' w',
      for_each (attach (EventHook.on (length pre))) tags w = Ok tt w'
      /\ event_hooks w' = pre ++ (fns ++ fns') :: post
      /\ map snd fns' = map Caller tags
      /\ trace w' = trace w
      /\ next_handle w' = next_handle w
      /\ mounted_cbs w' = mounted_cbs w
      /\ next_fn w <= next_fn w'.
Proof.
  induction tags as [|t tags IH]; intros fns w Hw Hf; simpl.
  - exists [], w. rewrite app_nil_r. repeat split; try assumption. lia.
  - unfold bind. rewrite (attach_at_eq pre post fns t w Hw Hf).
    edestruct (IH (fns ++ [(next_fn w, Caller t)])) as
      (fns' & w' & E & Hh & Hm & Ht & Hn & Hc & Hle); [| |rewrite E].
    + reflexivity.
    + simpl. apply Forall_app. split.
      * eapply Forall_impl; [exact Hf|]. simpl. intros p Hp. lia.
      * repeat constructor.
    + exists ((next_fn w, Caller t) :: fns'), w'. simpl in *.
      rewrite <- app_assoc in Hh. simpl in Hh.
      repeat split; try assumption; [rewrite Hm; reflexivity | lia].
Qed.

(** X7: two timelines are created in a component and the caller attaches
    handlers to the mount event of each through its [tlFn].  The timelines
    have different handles and hooks of their own: at mount the handlers of
    the first run with the first timeline, then those of the second with the
    second, each once and in the order of their attachment, and no handler
    runs with the other timeline. *)
Theorem X7_each_timeline_triggers_its_own_handlers
    (vars1 vars2 : option Options) (w : World) (tags1 tags2 : list nat) :
  mounted_cbs w = [] ->
  exists c1 w1 c2 w2 w3 w4 w5,
    timeline vars1 w = Ok c1 w1
    /\ timeline vars2 w1 = Ok c2 w2
    /\ tl c1 <> tl c2
    /\ for_each (attach (tlFn c1)) tags1 w2 = Ok tt w3
    /\ for_each (attach (tlFn c2)) tags2 w3 = Ok tt w4
    /\ mount w4 = Ok tt w5
    /\ trace w5 = trace w
         ++ [NewTimeline vars1 (tl c1); NewTimeline vars2 (tl c2)]
         ++ map (fun t => CallerHandler t (tl c1)) tags1
         ++ map (fun t => CallerHandler t (tl c2)) tags2.
Proof.
  intros Hm.
  set (h := next_handle w). set (n := length (event_hooks w)).
  set (w1 := timeline_made vars1 w). set (w2 := timeline_made vars2 w1).
  assert (Hh2 : event_hooks w2 = event_hooks w ++ [] :: [[]])
    by (simpl; rewrite <- app_assoc; reflexivity).
  destruct (subscribe_at_run (event_hooks w) [[]] tags1 [] w2 Hh2
              (List.Forall_nil _))
    as (fns1 & w3 & E3 & Hh3 & Hs1 & Ht3 & Hn3 & Hc3 & _).
  simpl in Hh3.
  assert (Hh3' : event_hooks w3 = (event_hooks w ++ [fns1]) ++ [] :: [])
    by (rewrite Hh3, <- app_assoc; reflexivity).
  assert (Hlen : length (event_hooks w1) = length (event_hooks w ++ [fns1]))
    by (simpl; rewrite !length_app; reflexivity).
  destruct (subscribe_at_run (event_hooks w ++ [fns1]) [] tags2 [] w3 Hh3'
              (List.Forall_nil _))
    as (fns2 & w4 & E4 & Hh4 & Hs2 & Ht4 & Hn4 & Hc4 & _).
  simpl in Hh4. rewrite <- Hlen in E4.
  exists (controls_of h n), w1, (controls_of (S h) (length (event_hooks w1))),
         w2, w3, w4.
  eexists.
  split; [apply timeline_eq|]. split; [apply (timeline_eq vars2 w1)|].
  split; [simpl; subst h; lia|].
  split; [exact E3|]. split; [exact E4|].
  unfold mount, bind, gets, modify. rewrite Hc4, Hc3. simpl. rewrite Hm. simpl.
  unfold EventHook.trigger, EventHook.handlers, gets, bind. simpl.
  rewrite Hh4.
  rewrite (lookup_app_l (event_hooks w ++ [fns1]) [fns2])
    by (rewrite length_app; simpl; lia).
  rewrite lookup_last. simpl.
  rewrite (handlers_run (next_handle w) fns1 tags1 Hs1). simpl.
  replace (length (event_hooks w ++ [[]]))
    with (length (event_hooks w ++ [fns1]))
    by (rewrite !length_app; reflexivity).
  rewrite Hh4, lookup_last. simpl.
  rewrite (handlers_run (S (next_handle w)) fns2 tags2 Hs2). simpl.
  split; [reflexivity|].
  rewrite Ht4, Ht3. simpl. rewrite <- !app_assoc. reflexivity.
Qed.

(** X7 at work: two timelines in the initial world, handlers 1 and 2 on the
    first, handler 3 on the second. *)
Lemma X7_each_timeline_triggers_its_own_handlers_witness :
  mounted_cbs init = []
  /\ exists c1 w1 c2 w2 w3 w4 w5,
       timeline None init = Ok c1 w1
       /\ timeline (Some move_right) w1 = Ok c2 w2
       /\ tl c1 <> tl c2
       /\ for_each (attach (tlFn c1)) [1; 2] w2 = Ok tt w3
       /\ for_each (attach (tlFn c2)) [3] w3 = Ok tt w4
       /\ mount w4 = Ok tt w5
       /\ trace w5 = [NewTimeline None (tl c1);
                      NewTimeline (Some move_right) (tl c2);
                      CallerHandler 1 (tl c1); CallerHandler 2 (tl c1);
                      CallerHandler 3 (tl c2)].
Proof.
  split; [reflexivity|].
  apply (X7_each_timeline_triggers_its_own_handlers None (Some move_right)
           init [1; 2] [3]).
  reflexivity.
Defined.
